(** * Maze pipeline of chatwindow.cpp: grid, openings, sealing, BFS, moves

    A shallow embedding of the static helpers of [src/chatwindow.cpp]
    ([isWhite], [buildGrid], [findOpenings], [bfsPath], [pathToMoves]) and of
    the two grid/coordinate fragments of [ChatWindow::solveMazeFromFile]
    (border sealing and the cell -> normalized point mapping).

    Conventions of the embedding.
    - C++ [int] values are [Z]; the grids handled here are [QVector]s, so
      every index, count and distance that is computed stays below the size
      of an allocated vector and no [int] operation overflows.
    - [QVector<T>] is [list T]; [v[i]] outside [0, size) is undefined
      behaviour in the source and is the result [Err OutOfRange] here; an
      integer division by zero is [Err DivByZero].
    - [while] loops run on fuel; running out of fuel is the result
      [Err OutOfFuel], so that [Ok] always means that the source returns.
    - [for (int i = lo; i < hi; ++i)] is the combinator [forZ lo hi]. *)

From Stdlib Require Import ZArith QArith Qminmax Lia Lqa String Ascii DecimalString Floats Uint63 Sorted.
From stdpp Require Import base option list.

Open Scope Z_scope.

(** ** Results of partial computations *)

Inductive error : Set :=
| OutOfRange   (* an index outside its vector *)
| DivByZero    (* an integer division by zero *)
| OutOfFuel.   (* a [while] loop out of fuel *)

Inductive res (A : Type) : Type :=
| Ok (a : A)
| Err (e : error).
Arguments Ok {A} a.
Arguments Err {A} e.

Definition bind {A B} (m : res A) (k : A -> res B) : res B :=
  match m with
  | Ok a => k a
  | Err e => Err e
  end.

Notation "x <~ m ;; k" := (bind m (fun x => k))
  (at level 100, m at next level, right associativity).

(** ** QVector *)

Definition size {A} (v : list A) : Z := Z.of_nat (length v).

(** [v[i]] for reading. *)
Definition at_ {A} (v : list A) (i : Z) : res A :=
  if i <? 0 then Err OutOfRange
  else match v !! Z.to_nat i with
       | Some a => Ok a
       | None => Err OutOfRange
       end.

(** [v[i] = a]. *)
Definition set_at {A} (v : list A) (i : Z) (a : A) : res (list A) :=
  if (0 <=? i) && (i <? size v) then Ok (<[Z.to_nat i := a]> v) else Err OutOfRange.

(** [for (int i = lo; i < hi; ++i) body], the state threaded through. *)
Fixpoint for_ {X} (n : nat) (i : Z) (body : Z -> X -> res X) (s : X) : res X :=
  match n with
  | O => Ok s
  | S n' => s' <~ body i s ;; for_ n' (i + 1) body s'
  end.

Definition forZ {X} (lo hi : Z) (body : Z -> X -> res X) (s : X) : res X :=
  for_ (Z.to_nat (hi - lo)) lo body s.

(** ** QPoint and the occupancy grid *)

Record QPoint : Set := QPt { px : Z; py : Z }.

#[global] Instance QPoint_eq_dec : EqDecision QPoint.
Proof. solve_decision. Defined.

(** [QVector<QVector<bool>>], indexed [grid[y][x]]; [true] is a free cell. *)
Abbreviation grid := (list (list bool)).

Definition at2 (g : grid) (y x : Z) : res bool :=
  row <~ at_ g y ;; at_ row x.

Definition set2 (g : grid) (y x : Z) (b : bool) : res grid :=
  row <~ at_ g y ;;
  row' <~ set_at row x b ;;
  set_at g y row'.

(** ** bfsPath (chatwindow.cpp, lines 151-197) *)

Module BFS.

Record state : Type := St { queue : list QPoint; dist : list Z; parent : list QPoint }.

Definition idx (gw x y : Z) : Z := y * gw + x.

Definition dx : list Z := [1; -1; 0; 0].
Definition dy : list Z := [0; 0; 1; -1].

(** The body of the [for (int k = 0; k < 4; ++k)] loop for the cell [u]. *)
Definition visit (g : grid) (gw gh : Z) (u : QPoint) (k : Z) (st : state) : res state :=
  dxk <~ at_ dx k ;;
  dyk <~ at_ dy k ;;
  let nx := px u + dxk in
  let ny := py u + dyk in
  if (nx <? 0) || (ny <? 0) || (nx >=? gw) || (ny >=? gh) then Ok st
  else
    c <~ at2 g ny nx ;;
    if negb c then Ok st
    else
      let id := idx gw nx ny in
      dn <~ at_ (dist st) id ;;
      if negb (dn =? -1) then Ok st
      else
        du <~ at_ (dist st) (idx gw (px u) (py u)) ;;
        dist' <~ set_at (dist st) id (du + 1) ;;
        parent' <~ set_at (parent st) id u ;;
        Ok (St (queue st ++ [QPt nx ny]) dist' parent').

(** [while (!q.empty())]: one unit of fuel per dequeued cell. *)
Fixpoint loop (fuel : nat) (g : grid) (gw gh : Z) (goal : QPoint) (st : state)
  : res state :=
  match fuel with
  | O => Err OutOfFuel
  | S fuel' =>
      match queue st with
      | [] => Ok st
      | u :: q' =>
          let st1 := St q' (dist st) (parent st) in
          if decide (u = goal) then Ok st1
          else
            st2 <~ forZ 0 4 (visit g gw gh u) st1 ;;
            loop fuel' g gw gh goal st2
      end
  end.

(** The reconstruction loop
    [for (v = goal; v != QPoint(-1,-1); v = parent[idx(v)])]. *)
Fixpoint walkBack (fuel : nat) (gw : Z) (par : list QPoint) (start v : QPoint)
  (path : list QPoint) : res (list QPoint) :=
  match fuel with
  | O => Err OutOfFuel
  | S fuel' =>
      if decide (v = QPt (-1) (-1)) then Ok path
      else
        let path' := path ++ [v] in
        if decide (v = start) then Ok path'
        else
          v' <~ at_ par (idx gw (px v) (py v)) ;;
          walkBack fuel' gw par start v' path'
  end.

Definition bfsPath (g : grid) (start goal : QPoint) : res (list QPoint) :=
  let gh := size g in
  if gh =? 0 then Ok []
  else
    row0 <~ at_ g 0 ;;
    let gw := size row0 in
    let n := Z.to_nat (gw * gh) in
    let dist0 := replicate n (-1) in
    let parent0 := replicate n (QPt (-1) (-1)) in
    dist1 <~ set_at dist0 (idx gw (px start) (py start)) 0 ;;
    st <~ loop (S n) g gw gh goal (St [start] dist1 parent0) ;;
    dg <~ at_ (dist st) (idx gw (px goal) (py goal)) ;;
    if dg =? -1 then Ok []
    else
      path <~ walkBack (S n) gw (parent st) start goal [] ;;
      Ok (rev path).

End BFS.

(** ** isWhite and buildGrid (chatwindow.cpp, lines 81-121)

    The [double] values of these two functions are IEEE 754 binary64 numbers
    ([PrimFloat]), each operation rounded to nearest, in the order in which
    the source writes them. *)

Record QImage : Type := { width : Z; height : Z; pixel : Z -> Z -> Z }.

(** [QRgb] is 0xAARRGGBB. *)
Definition qRed (c : Z) : Z := Z.land (Z.shiftr c 16) 255.
Definition qGreen (c : Z) : Z := Z.land (Z.shiftr c 8) 255.
Definition qBlue (c : Z) : Z := Z.land c 255.

(** [(double) n] for an [int]. *)
Definition double_of_int (n : Z) : float :=
  if n <? 0 then (- of_uint63 (Uint63.of_Z (- n)))%float
  else of_uint63 (Uint63.of_Z n).

(** [int(f)]: the conversion of a finite [double] truncates toward zero. *)
Definition int_of_double (f : float) : Z :=
  match Prim2SF f with
  | S754_finite s m e =>
      let a := match e with
               | Z0 => Zpos m
               | Zpos p => Zpos m * 2 ^ Zpos p
               | Zneg p => Zpos m / 2 ^ Zpos p
               end in
      if s then - a else a
  | _ => 0
  end.

#[warnings="-inexact-float"]
Definition luminance (c : Z) : Z :=
  int_of_double (0.2126 * double_of_int (qRed c) + 0.7152 * double_of_int (qGreen c)
                 + 0.0722 * double_of_int (qBlue c))%float.

Definition isWhite (img : QImage) (x y : Z) : bool :=
  if (x <? 0) || (y <? 0) || (x >=? width img) || (y >=? height img) then false
  else luminance (pixel img x y) >? 230.

(** [a / b] on [int]: truncating, undefined for [b = 0]. *)
Definition int_div (a b : Z) : res Z :=
  if b =? 0 then Err DivByZero else Ok (Z.quot a b).

(** [v.resize(n)]: truncate, or extend with default-constructed values. *)
Definition resize {A} (n : Z) (dflt : A) (v : list A) : list A :=
  take (Z.to_nat n) v ++ replicate (Z.to_nat n - length v) dflt.

(** The two innermost loops: the pixels of one cell are counted. *)
Definition countCell (maze : QImage) (x0 x1 y0 y1 : Z) : res (Z * Z) :=
  forZ y0 y1 (fun y cnt =>
    forZ x0 x1 (fun x '(whiteCount, total) =>
      let total := total + 1 in
      Ok (if isWhite maze x y then (whiteCount + 1, total) else (whiteCount, total)))
      cnt) (0, 0).

(** [ratio > 0.7] for [ratio = total > 0 ? (double) whiteCount / (double) total : 0.0]. *)
#[warnings="-inexact-float"]
Definition mostlyWhite (whiteCount total : Z) : bool :=
  let ratio := if total >? 0
               then (double_of_int whiteCount / double_of_int total)%float
               else 0%float in
  (0.7 <? ratio)%float.

(** [grid] is an in/out reference in the source: [grid0] is its value at the call. *)
Definition buildGrid (maze : QImage) (cellSize : Z) (grid0 : grid) : res grid :=
  gw <~ int_div (width maze + cellSize - 1) cellSize ;;
  gh <~ int_div (height maze + cellSize - 1) cellSize ;;
  forZ 0 gh (fun gy gr =>
    row <~ at_ gr gy ;;
    gr <~ set_at gr gy (resize gw false row) ;;
    forZ 0 gw (fun gx gr =>
      let x0 := gx * cellSize in
      let y0 := gy * cellSize in
      let x1 := Z.min (x0 + cellSize) (width maze) in
      let y1 := Z.min (y0 + cellSize) (height maze) in
      cnt <~ countCell maze x0 x1 y0 y1 ;;
      set2 gr gy gx (mostlyWhite (fst cnt) (snd cnt))) gr)
    (resize gh [] grid0).

(** ** findOpenings (chatwindow.cpp, lines 124-148) *)

(** The two scanning loops, which fill [openings]. *)
Definition collectOpenings (g : grid) (gw gh : Z) : res (list QPoint) :=
  openings <~ forZ 0 gw (fun x openings =>
      top <~ at2 g 0 x ;;
      let openings := if top then openings ++ [QPt x 0] else openings in
      bottom <~ at2 g (gh - 1) x ;;
      Ok (if bottom then openings ++ [QPt x (gh - 1)] else openings)) [] ;;
  forZ 0 gh (fun y openings =>
      left <~ at2 g y 0 ;;
      let openings := if left then openings ++ [QPt 0 y] else openings in
      right <~ at2 g y (gw - 1) ;;
      Ok (if right then openings ++ [QPt (gw - 1) y] else openings)) openings.

(** [None] is the result [false] (neither [start] nor [goal] is assigned),
    [Some (start, goal)] the result [true]. *)
Definition findOpenings (g : grid) : res (option (QPoint * QPoint)) :=
  let gh := size g in
  if gh =? 0 then Ok None
  else
    row0 <~ at_ g 0 ;;
    let gw := size row0 in
    openings <~ collectOpenings g gw gh ;;
    if size openings <? 2 then Ok None
    else
      match openings with
      | [] => Err OutOfRange
      | front :: _ => Ok (Some (front, List.last openings front))
      end.

(** ** Border sealing (solveMazeFromFile, chatwindow.cpp, lines 649-671) *)

Definition same (a b : QPoint) : bool := (px a =? px b) && (py a =? py b).

(** [if (!same(c, start) && !same(c, goal)) grid[c.y][c.x] = false;] *)
Definition sealCell (start goal c : QPoint) (g : grid) : res grid :=
  if negb (same c start) && negb (same c goal) then set2 g (py c) (px c) false
  else Ok g.

Definition sealBorder (g : grid) (start goal : QPoint) : res grid :=
  let gh := size g in
  row0 <~ at_ g 0 ;;
  let gw := size row0 in
  g <~ forZ 0 gw (fun x g =>
         g <~ sealCell start goal (QPt x 0) g ;;
         sealCell start goal (QPt x (gh - 1)) g) g ;;
  forZ 0 gh (fun y g =>
         g <~ sealCell start goal (QPt 0 y) g ;;
         sealCell start goal (QPt (gw - 1) y) g) g.

(** ** pathToMoves (chatwindow.cpp, lines 199-251) *)

Record Move : Set := MkMove { dir : string; steps : Z }.

Definition dirFromDelta (dx dy : Z) : string :=
  if (dx =? 1) && (dy =? 0) then "E"
  else if (dx =? -1) && (dy =? 0) then "W"
  else if (dx =? 0) && (dy =? 1) then "S"
  else if (dx =? 0) && (dy =? -1) then "N"
  else "?".

(** The state of the loop over the path: [prev], [curDir], [curSteps], [moves]. *)
Record runs : Set :=
  Runs { prev : QPoint; curDir : string; curSteps : Z; moves : list Move }.

Definition moveStep (gridPath : list QPoint) (i : Z) (st : runs) : res runs :=
  p <~ at_ gridPath i ;;
  let dx := px p - px (prev st) in
  let dy := py p - py (prev st) in
  let d := dirFromDelta dx dy in
  if String.eqb d "?" then Ok (Runs p (curDir st) (curSteps st) (moves st))
  else if curSteps st =? 0 then Ok (Runs p d 1 (moves st))
  else if String.eqb d (curDir st) then Ok (Runs p (curDir st) (curSteps st + 1) (moves st))
  else Ok (Runs p d 1 (moves st ++ [MkMove (curDir st) (curSteps st)])).

(** The vector [moves] when the loop and the final [push_back] are done. *)
Definition compressPath (gridPath : list QPoint) : res (list Move) :=
  prev0 <~ at_ gridPath 0 ;;
  st <~ forZ 1 (size gridPath) (moveStep gridPath) (Runs prev0 "" 0 []) ;;
  Ok (if curSteps st >? 0 then moves st ++ [MkMove (curDir st) (curSteps st)]
      else moves st).

Definition quote : string := String (ascii_of_nat 34) EmptyString.

(** [QString::arg(int)]: the decimal digits, a minus sign before a negative. *)
Definition decimal (n : Z) : string := NilZero.string_of_int (Z.to_int n).

(** [QString("{\"dir\":\"%1\",\"steps\":%2}").arg(m.dir).arg(m.steps)] *)
Definition moveText (m : Move) : string :=
  ("{" ++ quote ++ "dir" ++ quote ++ ":" ++ quote ++ dir m ++ quote ++ ","
       ++ quote ++ "steps" ++ quote ++ ":" ++ decimal (steps m) ++ "}")%string.

(** [parts.join(",")] *)
Fixpoint join (sep : string) (parts : list string) : string :=
  match parts with
  | [] => ""
  | [s] => s
  | s :: rest => (s ++ sep ++ join sep rest)%string
  end.

Definition pathToMoves (gridPath : list QPoint) : res string :=
  if size gridPath <? 2 then Ok "{}"%string
  else
    ms <~ compressPath gridPath ;;
    Ok ("[" ++ join "," (map moveText ms) ++ "]")%string.

(** ** Cell -> normalized point (solveMazeFromFile, chatwindow.cpp, lines 681-695)

    The [double] values of this fragment are modelled by rationals: the
    statements about it are about the formula, not about rounding. *)

(** [qBound(min, val, max)] is [qMax(min, qMin(max, val))]. *)
Definition qBound (lo v hi : Q) : Q := Qmax lo (Qmin hi v).

Definition toNormalized (mazeWidth mazeHeight cellSize : Z) (c : QPoint) : Q * Q :=
  let w := (inject_Z mazeWidth - 1)%Q in
  let h := (inject_Z mazeHeight - 1)%Q in
  let cx := ((inject_Z (px c) + 0.5) * inject_Z cellSize)%Q in
  let cy := ((inject_Z (py c) + 0.5) * inject_Z cellSize)%Q in
  let cx := qBound 0 cx (w - 1) in
  let cy := qBound 0 cy (h - 1) in
  let nx := (cx / (w - 1))%Q in
  let ny := (cy / (h - 1))%Q in
  (nx, ny).

Definition normalizedPath (mazeWidth mazeHeight cellSize : Z) (gridPath : list QPoint)
  : list (Q * Q) :=
  map (toNormalized mazeWidth mazeHeight cellSize) gridPath.

(** ** Reachability over the grid, as the claims speak of it *)

Definition gheight (g : grid) : Z := size g.
Definition gwidth (g : grid) : Z :=
  match g with
  | [] => 0
  | row0 :: _ => size row0
  end.

(** Every row has the width of row 0 (the OccupancyGrid is rectangular). *)
Definition rect (g : grid) : Prop := Forall (fun row => size row = gwidth g) g.

Definition inb (g : grid) (p : QPoint) : Prop :=
  0 <= px p < gwidth g /\ 0 <= py p < gheight g.

(** The value of a cell; [false] outside the grid. *)
Definition cell (g : grid) (p : QPoint) : bool :=
  match at2 g (py p) (px p) with
  | Ok b => b
  | _ => false
  end.

(** Four-adjacency: one unit apart in exactly one axis. *)
Definition adjacent (u v : QPoint) : Prop :=
  Z.abs (px v - px u) + Z.abs (py v - py u) = 1.

(** One move of a route: into a four-adjacent free cell of the grid. *)
Definition step (g : grid) (u v : QPoint) : Prop :=
  adjacent u v /\ inb g v /\ cell g v = true.

(** [route g u rest]: the cells [u :: rest] are a route leaving [u]. *)
Fixpoint route (g : grid) (u : QPoint) (rest : list QPoint) : Prop :=
  match rest with
  | [] => True
  | v :: rest' => step g u v /\ route g v rest'
  end.

(** [connects g s t rest]: [s :: rest] is a route from [s] to [t]. *)
Definition connects (g : grid) (s t : QPoint) (rest : list QPoint) : Prop :=
  route g s rest /\ List.last rest s = t.

(** [n] is the least number of moves of a route from [s] to [t]. *)
Definition shortest (g : grid) (s t : QPoint) (n : nat) : Prop :=
  (exists rest, connects g s t rest /\ length rest = n) /\
  (forall rest, connects g s t rest -> (n <= length rest)%nat).

(** ** Border cells and scan orders *)

(** The order in which the two loops of [findOpenings] look at the border:
    column by column the top then the bottom cell, then row by row the left
    then the right cell. *)
Definition scanOrder (gw gh : Z) : list QPoint :=
  flat_map (fun x => [QPt x 0; QPt x (gh - 1)]) (seqZ 0 gw) ++
  flat_map (fun y => [QPt 0 y; QPt (gw - 1) y]) (seqZ 0 gh).

(** The order of the specification text: top row left to right, bottom row
    left to right, left column top to bottom, right column top to bottom. *)
Definition rowWiseOrder (gw gh : Z) : list QPoint :=
  map (fun x => QPt x 0) (seqZ 0 gw) ++ map (fun x => QPt x (gh - 1)) (seqZ 0 gw) ++
  map (fun y => QPt 0 y) (seqZ 0 gh) ++ map (fun y => QPt (gw - 1) y) (seqZ 0 gh).

Definition onBorder (g : grid) (p : QPoint) : Prop :=
  px p = 0 \/ px p = gwidth g - 1 \/ py p = 0 \/ py p = gheight g - 1.

Definition onBorderb (g : grid) (p : QPoint) : bool :=
  (px p =? 0) || (px p =? gwidth g - 1) || (py p =? 0) || (py p =? gheight g - 1).

(** Every cell of the grid once, row by row. *)
Definition allCells (g : grid) : list QPoint :=
  flat_map (fun y => map (fun x => QPt x y) (seqZ 0 (gwidth g))) (seqZ 0 (gheight g)).

(** The border cells of the grid that are free, each once. *)
Definition freeBorderCells (g : grid) : list QPoint :=
  List.filter (fun p => onBorderb g p && cell g p) (allCells g).

(** [g'] has the dimensions of [g]. *)
Definition shaped (g g' : grid) : Prop :=
  rect g' /\ gwidth g' = gwidth g /\ gheight g' = gheight g.

(** ** Pixels of a cell *)

(** The pixels [(x, y)] with [x0 <= x < x1] and [y0 <= y < y1], row by row. *)
Definition rectPixels (x0 x1 y0 y1 : Z) : list (Z * Z) :=
  flat_map (fun y => map (fun x => (x, y)) (seqZ x0 (x1 - x0))) (seqZ y0 (y1 - y0)).

(** The pixels of the cell [(gx, gy)]: a [cellSize] square clipped to the image. *)
Definition cellPixels (maze : QImage) (cellSize gx gy : Z) : list (Z * Z) :=
  rectPixels (gx * cellSize) (Z.min (gx * cellSize + cellSize) (width maze))
             (gy * cellSize) (Z.min (gy * cellSize + cellSize) (height maze)).

(** A pixel whose luminance, as [isWhite] computes it, exceeds 230. *)
Definition bright (maze : QImage) (xy : Z * Z) : bool :=
  luminance (pixel maze (fst xy) (snd xy)) >? 230.

Definition whitePixels (maze : QImage) (cellSize gx gy : Z) : list (Z * Z) :=
  List.filter (bright maze) (cellPixels maze cellSize gx gy).

(** The value that [buildGrid] gives to the cell [(gx, gy)]. *)
Definition cellFree (maze : QImage) (cellSize gx gy : Z) : bool :=
  mostlyWhite (size (whitePixels maze cellSize gx gy))
              (size (cellPixels maze cellSize gx gy)).

Definition finalRow (maze : QImage) (cellSize gw gy : Z) : list bool :=
  map (fun gx => cellFree maze cellSize gx gy) (seqZ 0 gw).

Definition finalGrid (maze : QImage) (cellSize gw gh : Z) : grid :=
  map (finalRow maze cellSize gw) (seqZ 0 gh).

(** The classification of the specification text, in exact arithmetic: the
    luminance 0.2126 R + 0.7152 G + 0.0722 B exceeds 230, and the fraction of
    such pixels in the cell exceeds 0.7. *)
Definition exactLuminance (c : Z) : Q :=
  (0.2126 * inject_Z (qRed c) + 0.7152 * inject_Z (qGreen c)
   + 0.0722 * inject_Z (qBlue c))%Q.

Definition exactBright (maze : QImage) (xy : Z * Z) : bool :=
  negb (Qle_bool (exactLuminance (pixel maze (fst xy) (snd xy))) 230).

Definition exactFree (maze : QImage) (cellSize gx gy : Z) : bool :=
  let pixels := cellPixels maze cellSize gx gy in
  negb (Qle_bool (inject_Z (size (List.filter (exactBright maze) pixels))
                  / inject_Z (size pixels)) 0.7).

(** A 1 x 1 image whose pixel is (R, G, B) = (234, 230, 230). *)
Definition palePixel : QImage :=
  {| width := 1; height := 1; pixel := fun _ _ => 0xFFEAE6E6 |}.

(** [f] holds of the [n] integers from [lo] on. *)
Fixpoint forallFrom (n : nat) (lo : Z) (f : Z -> bool) : bool :=
  match n with
  | O => true
  | S n' => f lo && forallFrom n' (lo + 1) f
  end.

(** [mostlyWhite] agrees with the exact test [white / total > 7/10] for the
    total [t] and every [0 <= white <= t]. *)
Definition ratioExactFor (t : Z) : bool :=
  forallFrom (S (Z.to_nat t)) 0 (fun w =>
    Bool.eqb (mostlyWhite w t) (7 * t <? 10 * w)).

(** ** The normalization of the specification text *)

(** Clamp the cell centre into [0, dimension - 1] and divide by
    [dimension - 1], for the width of the cropped image. *)
Definition claimedNormalizedX (mazeWidth cellSize : Z) (c : QPoint) : Q :=
  (qBound 0 ((inject_Z (px c) + 0.5) * inject_Z cellSize) (inject_Z mazeWidth - 1)
   / (inject_Z mazeWidth - 1))%Q.

(** ** Run-length encoding of a path *)

(** The direction of the step from [a] to [b], if it is one of the four. *)
Definition stepDir (a b : QPoint) : list string :=
  let d := dirFromDelta (px b - px a) (py b - py a) in
  if String.eqb d "?" then [] else [d].

(** The direction of each step of the path, the unrecognized steps left out. *)
Fixpoint stepDirs (path : list QPoint) : list string :=
  match path with
  | a :: (b :: _) as rest => stepDir a b ++ stepDirs rest
  | _ => []
  end.

(** The moves written out step by step. *)
Definition expand (ms : list Move) : list string :=
  flat_map (fun m => replicate (Z.to_nat (steps m)) (dir m)) ms.

(** No two neighbours of the list are equal. *)
Fixpoint noRepeat (l : list string) : Prop :=
  match l with
  | a :: (b :: _) as rest => a <> b /\ noRepeat rest
  | _ => True
  end.

(** [ms] is the run-length encoding of the directions [ds]: it expands to
    [ds], every run has at least one step, and neighbouring runs differ. *)
Definition runLengthOf (ds : list string) (ms : list Move) : Prop :=
  expand ms = ds /\ Forall (fun m => 1 <= steps m) ms /\ noRepeat (map dir ms).

(** The moves that the loop state stands for: [moves], then the current run. *)
Definition allMoves (st : runs) : list Move :=
  if curSteps st >? 0 then moves st ++ [MkMove (curDir st) (curSteps st)]
  else moves st.

(** [s] occurs in [t]. *)
Definition occursIn (s t : string) : Prop :=
  exists a b, t = (a ++ s ++ b)%string.

Definition scenarioC : list QPoint := [QPt 0 0; QPt 1 0; QPt 2 0; QPt 2 1].

(** ** The loop invariant of [bfsPath] *)

(** [dist[i]] and [parent[i]] as total functions (the fill values outside). *)
Definition getd (d : list Z) (i : Z) : Z := default (-1) (d !! Z.to_nat i).
Definition getp (par : list QPoint) (i : Z) : QPoint :=
  default (QPt (-1) (-1)) (par !! Z.to_nat i).

(** [idx(p.x(), p.y())] for the grid [g]. *)
Definition cidx (g : grid) (p : QPoint) : Z := BFS.idx (gwidth g) (px p) (py p).

(** Number of entries of [dist] that are still [-1], and of those that are not. *)
Fixpoint unseen (d : list Z) : nat :=
  match d with
  | [] => O
  | z :: d' => if z =? -1 then S (unseen d') else unseen d'
  end.
Definition seen (d : list Z) : Z := size d - Z.of_nat (unseen d).

(** [Inv g start Q d par]: the state of the search with pending cells [Q]
    (the cell being expanded included), distances [d] and parents [par]. *)
Record Inv (g : grid) (start : QPoint) (Q : list QPoint) (d : list Z)
  (par : list QPoint) : Prop := {
  inv_size_d : size d = gwidth g * gheight g;
  inv_size_p : size par = gwidth g * gheight g;
  inv_vals : forall i z, d !! i = Some z -> -1 <= z < seen d;
  inv_start : getd d (cidx g start) = 0;
  inv_queue : forall u, u ∈ Q -> inb g u /\ 0 <= getd d (cidx g u);
  inv_sorted : StronglySorted Z.le (map (fun u => getd d (cidx g u)) Q);
  inv_bound : forall v a, inb g v -> a ∈ Q ->
      getd d (cidx g v) <= getd d (cidx g a) + 1;
  inv_tree : forall v, inb g v -> 0 <= getd d (cidx g v) -> v <> start ->
      inb g (getp par (cidx g v)) /\
      0 <= getd d (cidx g (getp par (cidx g v))) /\
      getd d (cidx g v) = getd d (cidx g (getp par (cidx g v))) + 1 /\
      step g (getp par (cidx g v)) v;
  inv_closed : forall v w, inb g v -> 0 <= getd d (cidx g v) -> v ∉ Q ->
      step g v w -> 0 <= getd d (cidx g w) <= getd d (cidx g v) + 1
}.

(** The [k]-th neighbour of [u], as the inner loop computes it. *)
Definition nbr (u : QPoint) (k : Z) (w : QPoint) : Prop :=
  exists dxk dyk, at_ BFS.dx k = Ok dxk /\ at_ BFS.dy k = Ok dyk /\
                  w = QPt (px u + dxk) (py u + dyk).

(** ** Loop invariants of the sealing step and of [pathToMoves] *)

(** The cells that the first loop has sealed when its counter is [x], and
    those that the second loop has sealed when its counter is [y]. *)
Definition sealedRows (g : grid) (start goal : QPoint) (x : Z) (p : QPoint) : Prop :=
  (py p = 0 \/ py p = gheight g - 1) /\ px p < x /\ p <> start /\ p <> goal.
Definition sealedCols (g : grid) (start goal : QPoint) (y : Z) (p : QPoint) : Prop :=
  (px p = 0 \/ px p = gwidth g - 1) /\ py p < y /\ p <> start /\ p <> goal.

Definition sealInv (g : grid) (S : QPoint -> Prop) (g' : grid) : Prop :=
  shaped g g' /\
  forall p, inb g p -> (S p -> cell g' p = false) /\ (~ S p -> cell g' p = cell g p).

(** The invariant of the loop over the path, before the iteration [i]. *)
Definition runsInv (path : list QPoint) (i : Z) (st : runs) : Prop :=
  path !! Z.to_nat (i - 1) = Some (prev st) /\
  runLengthOf (stepDirs (take (Z.to_nat i) path)) (allMoves st) /\
  0 <= curSteps st /\
  (curSteps st = 0 -> moves st = []).

(** ** Sample inputs *)

(** Two openings, (2,0) in the top row and (1,2) in the bottom row. *)
Definition twoOpenings : grid :=
  [ [false; false; true;  false];
    [false; true;  true;  false];
    [false; true;  false; false] ].
(** One free border cell, the corner (0,0). *)
Definition cornerOpening : grid := [[true; false]; [false; false]].

(** A maze with a wall between its two openings, and one without. *)
Definition sampleMaze : grid :=
  [ [true;  false; true; true];
    [true;  true;  true; false];
    [false; false; true; true] ].
Definition walledRow : grid := [[true; false; true]].
Definition openSquare : grid :=
  [ [true; true; true]; [true; true; true]; [true; true; true] ].

(** ** The overlay's way back (solveMazeFromFile, chatwindow.cpp, line 830)

    [mapX(x) = bbox.x() + qBound(0.0, x, 1.0) * w], with the [w] of the
    normalization, [mazeOnly.width() - 1]. *)
Definition mapX (bboxX mazeWidth : Z) (x : Q) : Q :=
  (inject_Z bboxX + qBound 0 x 1 * (inject_Z mazeWidth - 1))%Q.

(** ** Reading a move list back *)

(** The cells [u :: rest] are consecutive four-neighbours. *)
Fixpoint fourConnected (u : QPoint) (rest : list QPoint) : Prop :=
  match rest with
  | [] => True
  | v :: rest' => adjacent u v /\ fourConnected v rest'
  end.

(** The four direction letters that [dirFromDelta] gives to a unit step. *)
Definition isDir (d : string) : Prop :=
  d = "E"%string \/ d = "W"%string \/ d = "S"%string \/ d = "N"%string.

(** One cell further in the direction [d]. *)
Definition moveBy (p : QPoint) (d : string) : QPoint :=
  if String.eqb d "E" then QPt (px p + 1) (py p)
  else if String.eqb d "W" then QPt (px p - 1) (py p)
  else if String.eqb d "S" then QPt (px p) (py p + 1)
  else if String.eqb d "N" then QPt (px p) (py p - 1)
  else p.

(** The cells visited from [p] by one step per direction of [ds]. *)
Fixpoint follow (p : QPoint) (ds : list string) : list QPoint :=
  match ds with
  | [] => []
  | d :: ds' => moveBy p d :: follow (moveBy p d) ds'
  end.

(** The cells visited from [p] by a move list, each move walked step by step. *)
Definition replay (p : QPoint) (ms : list Move) : list QPoint :=
  follow p (expand ms).

(** The sum of the step counts. *)
Definition totalSteps (ms : list Move) : Z :=
  fold_right (fun m acc => steps m + acc) 0 ms.

(** ** findMazeBBox (chatwindow.cpp, lines 56-78) *)

(** [QRect] keeps its corners: [QRect(x, y, w, h)] has the right edge
    [x + w - 1] and the bottom edge [y + h - 1], [QRect(topLeft, bottomRight)]
    takes the corners as they are. *)
Record QRect : Set := MkRect { rleft : Z; rtop : Z; rright : Z; rbottom : Z }.

Definition rectXYWH (x y w h : Z) : QRect := MkRect x y (x + w - 1) (y + h - 1).
Definition rectWidth (r : QRect) : Z := rright r - rleft r + 1.
Definition rectHeight (r : QRect) : Z := rbottom r - rtop r + 1.

(** The four running extremes [minx], [miny], [maxx], [maxy]. *)
Record extent : Set := Extent { minx : Z; miny : Z; maxx : Z; maxy : Z }.

(** The body of the two loops for the pixel [(x, y)]. *)
Definition scanPixel (img : QImage) (wallLum : Z) (x y : Z) (e : extent) : extent :=
  let c := pixel img x y in
  let lum := luminance c in
  if lum <? wallLum then
    Extent (if x <? minx e then x else minx e)
           (if y <? miny e then y else miny e)
           (if x >? maxx e then x else maxx e)
           (if y >? maxy e then y else maxy e)
  else e.

Definition scanImage (img : QImage) (wallLum : Z) : res extent :=
  forZ 0 (height img) (fun y e =>
    forZ 0 (width img) (fun x e => Ok (scanPixel img wallLum x y e)) e)
    (Extent (width img) (height img) (-1) (-1)).

Definition findMazeBBox (img : QImage) (wallLum pad : Z) : res QRect :=
  e <~ scanImage img wallLum ;;
  if maxx e <? 0 then Ok (rectXYWH 0 0 (width img) (height img))
  else
    let minx' := Z.max 0 (minx e - pad) in
    let miny' := Z.max 0 (miny e - pad) in
    let maxx' := Z.min (width img - 1) (maxx e + pad) in
    let maxy' := Z.min (height img - 1) (maxy e + pad) in
    Ok (MkRect minx' miny' maxx' maxy').

(** A pixel of the image that the scan counts as wall. *)
Definition dark (img : QImage) (wallLum : Z) (x y : Z) : Prop :=
  (0 <= x < width img /\ 0 <= y < height img) /\
  luminance (pixel img x y) < wallLum.

(** The pixels that the scan has seen when it is about to look at [(x, y)]. *)
Definition scanned (img : QImage) (x y : Z) (x' y' : Z) : Prop :=
  (0 <= x' < width img /\ 0 <= y' < height img) /\
  (y' < y \/ (y' = y /\ x' < x)).

(** The extremes are those of the dark pixels seen so far. *)
Definition extentInv (img : QImage) (wallLum : Z) (x y : Z) (e : extent) : Prop :=
  (forall x' y', scanned img x y x' y' -> dark img wallLum x' y' ->
                 minx e <= x' <= maxx e /\ miny e <= y' <= maxy e) /\
  ((e = Extent (width img) (height img) (-1) (-1) /\
    forall x' y', scanned img x y x' y' -> ~ dark img wallLum x' y') \/
   ((exists x' y', scanned img x y x' y' /\ dark img wallLum x' y' /\ x' = minx e) /\
    (exists x' y', scanned img x y x' y' /\ dark img wallLum x' y' /\ y' = miny e) /\
    (exists x' y', scanned img x y x' y' /\ dark img wallLum x' y' /\ x' = maxx e) /\
    (exists x' y', scanned img x y x' y' /\ dark img wallLum x' y' /\ y' = maxy e))).

(** ** The solving pipeline (solveMazeFromFile, chatwindow.cpp, lines 634-695) *)

(** [img.copy(r)] for a rectangle [r] inside the image: the pixels of [r],
    with its top left corner as the new origin. *)
Definition copyRect (img : QImage) (r : QRect) : QImage :=
  {| width := rectWidth r;
     height := rectHeight r;
     pixel := fun x y => pixel img (rleft r + x) (rtop r + y) |}.

(** The three ways in which the function leaves its computing part: the two
    error messages, and the data that it goes on to draw. *)
Inductive outcome : Type :=
| NoEntrances                      (* "Could not find maze entrances." *)
| NoPath                           (* "No path found by BFS." *)
| Solved (gridPath : list QPoint) (movesJson : string) (points : list (Q * Q)).

(** From the loaded image to [gridPath], [movesJson] and [points]. *)
Definition solveMaze (img : QImage) : res outcome :=
  bbox <~ findMazeBBox img 200 2 ;;
  let mazeOnly := copyRect img bbox in
  let cellSize := 3 in
  g <~ buildGrid mazeOnly cellSize [] ;;
  found <~ findOpenings g ;;
  match found with
  | None => Ok NoEntrances
  | Some (start, goal) =>
      g <~ sealBorder g start goal ;;
      gridPath <~ BFS.bfsPath g start goal ;;
      match gridPath with
      | [] => Ok NoPath
      | _ :: _ =>
          movesJson <~ pathToMoves gridPath ;;
          Ok (Solved gridPath movesJson
                (normalizedPath (width mazeOnly) (height mazeOnly) cellSize gridPath))
      end
  end.

(** A 5 x 5 white image with one black pixel in the middle. *)
Definition inkDot : QImage :=
  {| width := 5; height := 5;
     pixel := fun x y => if (x =? 2) && (y =? 2) then 0xFF000000 else 0xFFFFFFFF |}.

(** A 9 x 9 image: a black frame one cell (3 pixels) thick around a white
    middle, with white gaps in the middle of the top and of the bottom side. *)
Definition framedCorridor : QImage :=
  {| width := 9; height := 9;
     pixel := fun x y => if (3 <=? x) && (x <? 6) then 0xFFFFFFFF else 0xFF000000 |}.

(** ** The overlay (solveMazeFromFile, chatwindow.cpp, lines 830-840) *)



(** ** The conversation memory (ChatWindow::postChat, chatwindow.cpp, lines 434-510)

    The state is the array [conversationHistory] and what the file
    [memory.json] holds ([None]: not written yet).  The text that the reply
    handler extracts from the answer, and whether the file can be opened for
    writing, are inputs. *)

Record Message : Set := Msg { role : string; content : string }.

Record memory : Set :=
  Mem { conversationHistory : list Message; memoryFile : option (list Message) }.

(** The part of [postChat] that runs before the request is sent. *)
Definition postChat (userText : string) (m : memory) : memory :=
  Mem (conversationHistory m ++ [Msg "user" userText]) (memoryFile m).

(** The handler of [QNetworkReply::finished]. *)
Definition finished (replyText : string) (writable : bool) (m : memory) : memory :=
  if String.eqb replyText EmptyString then m
  else
    let h := conversationHistory m ++ [Msg "assistant" replyText] in
    let file := if writable then Some h else memoryFile m in
    let h := if size h >? 20 then tail h else h in
    Mem h file.

(** One message of the user and the answer to it. *)
Record exchange : Set :=
  Exchange { userText : string; replyText : string; writable : bool }.

Definition converse (m : memory) (e : exchange) : memory :=
  finished (replyText e) (writable e) (postChat (userText e) m).

Definition conversation (es : list exchange) (m : memory) : memory :=
  fold_left converse es m.

(** ** Generic facts: results, vectors, for loops *)

Lemma bind_ok {A B} (m : res A) (k : A -> res B) a :
  m = Ok a -> bind m k = k a.
Proof. intros ->. reflexivity. Qed.

Lemma at_ok {A} (v : list A) (i : Z) :
  0 <= i < size v -> exists a, at_ v i = Ok a /\ v !! Z.to_nat i = Some a.
Proof.
  intros Hi. unfold at_, size in *.
  destruct (Z.ltb_spec i 0) as [?|_]; [lia|].
  destruct (v !! Z.to_nat i) as [a|] eqn:E; [eauto|].
  apply lookup_ge_None in E. lia.
Qed.

Lemma at_inv {A} (v : list A) (i : Z) a :
  at_ v i = Ok a -> 0 <= i < size v /\ v !! Z.to_nat i = Some a.
Proof.
  unfold at_, size. destruct (Z.ltb_spec i 0) as [?|?]; [discriminate|].
  destruct (v !! Z.to_nat i) as [b|] eqn:E; [|discriminate].
  intros [= ->]. apply lookup_lt_Some in E as HE. split; [lia|done].
Qed.

Lemma set_at_ok {A} (v : list A) (i : Z) a :
  0 <= i < size v -> set_at v i a = Ok (<[Z.to_nat i := a]> v).
Proof.
  intros Hi. unfold set_at.
  destruct (Z.leb_spec 0 i); [|lia]. destruct (Z.ltb_spec i (size v)); [|lia].
  reflexivity.
Qed.

Lemma size_insert {A} (v : list A) i a : size (<[i := a]> v) = size v.
Proof. unfold size. by rewrite length_insert. Qed.

(** The Hoare rule of [forZ]: an invariant indexed by the loop counter. *)
Lemma for_inv {X} (P : Z -> X -> Prop) (body : Z -> X -> res X) :
  forall n i s,
    P i s ->
    (forall j t, i <= j < i + Z.of_nat n -> P j t ->
                 exists t', body j t = Ok t' /\ P (j + 1) t') ->
    exists s', for_ n i body s = Ok s' /\ P (i + Z.of_nat n) s'.
Proof.
  induction n as [|n IH]; intros i s HP Hbody; simpl.
  - exists s. split; [done|]. replace (i + Z.of_nat 0) with i by lia. exact HP.
  - destruct (Hbody i s) as (t & -> & Ht); [lia|done|]. simpl.
    destruct (IH (i + 1) t Ht) as (s' & -> & Hs').
    + intros j t' Hj. apply Hbody. lia.
    + exists s'. split; [done|].
      replace (i + Z.of_nat (S n)) with (i + 1 + Z.of_nat n) by lia. exact Hs'.
Qed.

Lemma forZ_inv {X} (P : Z -> X -> Prop) (body : Z -> X -> res X) lo hi s :
  lo <= hi ->
  P lo s ->
  (forall j t, lo <= j < hi -> P j t -> exists t', body j t = Ok t' /\ P (j + 1) t') ->
  exists s', forZ lo hi body s = Ok s' /\ P hi s'.
Proof.
  intros Hle HP Hbody. unfold forZ.
  destruct (for_inv P body (Z.to_nat (hi - lo)) lo s HP) as (s' & E & Hs').
  - intros j t Hj. apply Hbody. lia.
  - exists s'. split; [done|]. replace (lo + Z.of_nat (Z.to_nat (hi - lo))) with hi in Hs' by lia. exact Hs'.
Qed.

(** ** Facts on grids *)

Lemma rect_row (g : grid) y row :
  rect g -> g !! y = Some row -> size row = gwidth g.
Proof. intros Hr Hy. unfold rect in Hr. rewrite Forall_lookup in Hr. eauto. Qed.

Lemma at2_cell (g : grid) p :
  rect g -> inb g p -> at2 g (py p) (px p) = Ok (cell g p).
Proof.
  intros Hr [Hx Hy]. unfold cell, at2.
  destruct (at_ok g (py p)) as (row & -> & Hrow); [done|]. simpl.
  apply (rect_row _ _ _ Hr) in Hrow.
  destruct (at_ok row (px p)) as (b & -> & _); [lia|]. done.
Qed.

Lemma at2_xy (g : grid) x y :
  rect g -> 0 <= x < gwidth g -> 0 <= y < gheight g ->
  at2 g y x = Ok (cell g (QPt x y)).
Proof. intros Hr Hx Hy. by apply (at2_cell g (QPt x y)). Qed.

Lemma adjacent_cases u v :
  adjacent u v ->
  exists k, 0 <= k < 4 /\
    exists dxk dyk, at_ BFS.dx k = Ok dxk /\ at_ BFS.dy k = Ok dyk /\
                    v = QPt (px u + dxk) (py u + dyk).
Proof.
  unfold adjacent. destruct u as [ux uy], v as [vx vy]; simpl. intros H.
  assert (Hc : (vx = ux + 1 /\ vy = uy) \/ (vx = ux - 1 /\ vy = uy) \/
               (vx = ux /\ vy = uy + 1) \/ (vx = ux /\ vy = uy - 1)) by lia.
  destruct Hc as [[-> ->]|[[-> ->]|[[-> ->]|[-> ->]]]].
  - exists 0. split; [lia|]. exists 1, 0. repeat split; f_equal; lia.
  - exists 1. split; [lia|]. exists (-1), 0. repeat split; f_equal; lia.
  - exists 2. split; [lia|]. exists 0, 1. repeat split; f_equal; lia.
  - exists 3. split; [lia|]. exists 0, (-1). repeat split; f_equal; lia.
Qed.

Lemma deltas_adjacent k dxk dyk u :
  at_ BFS.dx k = Ok dxk -> at_ BFS.dy k = Ok dyk ->
  adjacent u (QPt (px u + dxk) (py u + dyk)).
Proof.
  intros Hx Hy. apply at_inv in Hx as [Hk Hx]. apply at_inv in Hy as [_ Hy].
  unfold size in Hk. simpl in Hk.
  assert (Hc : k = 0 \/ k = 1 \/ k = 2 \/ k = 3) by lia.
  unfold adjacent; simpl.
  destruct Hc as [-> | [-> | [-> | ->]]]; simpl in Hx, Hy;
    injection Hx as Hx; injection Hy as Hy; lia.
Qed.

(** ** Facts on [dist], [parent] and cell indices *)

Lemma getd_lookup d i z : d !! Z.to_nat i = Some z -> getd d i = z.
Proof. unfold getd. by intros ->. Qed.

Lemma at_getd d i : 0 <= i < size d -> at_ d i = Ok (getd d i).
Proof.
  intros Hi. destruct (at_ok d i Hi) as (z & -> & Hz). by rewrite (getd_lookup _ _ _ Hz).
Qed.

Lemma at_getp par i : 0 <= i < size par -> at_ par i = Ok (getp par i).
Proof.
  intros Hi. destruct (at_ok par i Hi) as (z & -> & Hz). unfold getp. by rewrite Hz.
Qed.

Lemma getd_insert d i j z :
  0 <= i < size d -> 0 <= j ->
  getd (<[Z.to_nat i := z]> d) j = if decide (i = j) then z else getd d j.
Proof.
  intros Hi Hj. unfold getd, size in *. destruct (decide (i = j)) as [->|Hne].
  - rewrite list_lookup_insert_eq; [done|lia].
  - rewrite list_lookup_insert_ne; [done|lia].
Qed.

Lemma getp_insert par i j z :
  0 <= i < size par -> 0 <= j ->
  getp (<[Z.to_nat i := z]> par) j = if decide (i = j) then z else getp par j.
Proof.
  intros Hi Hj. unfold getp, size in *. destruct (decide (i = j)) as [->|Hne].
  - rewrite list_lookup_insert_eq; [done|lia].
  - rewrite list_lookup_insert_ne; [done|lia].
Qed.

Lemma unseen_le d : (unseen d <= length d)%nat.
Proof. induction d as [|z d IH]; simpl; [lia|]. destruct (z =? -1); simpl; lia. Qed.

Lemma unseen_replicate n : unseen (replicate n (-1)) = n.
Proof. induction n as [|n IH]; simpl; [done|]. by rewrite IH. Qed.

Lemma unseen_insert d i z :
  d !! i = Some (-1) -> z <> -1 -> S (unseen (<[i := z]> d)) = unseen d.
Proof.
  revert i. induction d as [|a d IH]; intros [|i] Hl Hz; simpl in *; try discriminate.
  - injection Hl as ->. simpl. by destruct (Z.eqb_spec z (-1)).
  - rewrite <- (IH i Hl Hz). by destruct (a =? -1).
Qed.

Lemma cidx_range g p :
  inb g p -> 0 <= cidx g p < gwidth g * gheight g.
Proof. unfold inb, cidx, BFS.idx. intros [Hx Hy]. nia. Qed.

Lemma cidx_inj g p q :
  inb g p -> inb g q -> cidx g p = cidx g q -> p = q.
Proof.
  unfold inb, cidx, BFS.idx. destruct p as [x y], q as [x' y']; simpl.
  intros [Hx Hy] [Hx' Hy'] E.
  assert (y = y') by nia. subst y'. assert (x = x') by lia. by subst.
Qed.

Lemma sorted_snoc (l : list Z) z :
  StronglySorted Z.le l -> Forall (fun a => a <= z) l -> StronglySorted Z.le (l ++ [z]).
Proof.
  induction 1 as [|a l Hs IH Ha]; intros Hz; simpl.
  - repeat constructor.
  - apply Forall_cons in Hz as [Haz Hz]. constructor; [by apply IH|].
    apply Forall_app. split; [done|]. by constructor.
Qed.

Lemma last_cons {A} (l : list A) a b : List.last (a :: l) b = List.last l a.
Proof.
  revert a b. induction l as [|x l IH]; intros a b; [done|].
  change (List.last (a :: x :: l) b) with (List.last (x :: l) b).
  rewrite (IH x b). symmetry. apply IH.
Qed.

Lemma route_snoc g u rest w :
  route g u (rest ++ [w]) <-> route g u rest /\ step g (List.last rest u) w.
Proof.
  revert u. induction rest as [|v rest IH]; intros u.
  - simpl. tauto.
  - rewrite <- app_comm_cons. cbn [route]. rewrite IH, last_cons. tauto.
Qed.

Lemma last_snoc {A} (l : list A) a b : List.last (l ++ [a]) b = a.
Proof. induction l as [|x l IH]; simpl; [done|]. rewrite IH. by destruct l. Qed.

(** ** The invariant is established and preserved *)

Section BFSInvariant.

Variable g : grid.
Variable start : QPoint.
Hypothesis Hrect : rect g.
Hypothesis Hstart : inb g start.

Local Abbreviation D d v := (getd d (cidx g v)).
Local Abbreviation P par v := (getp par (cidx g v)).

Lemma D_insert d n v z :
  size d = gwidth g * gheight g -> inb g n -> inb g v ->
  D (<[Z.to_nat (cidx g n) := z]> d) v = if decide (v = n) then z else D d v.
Proof.
  intros Hsz Hn Hv. pose proof (cidx_range g n Hn). pose proof (cidx_range g v Hv).
  rewrite getd_insert by lia.
  destruct (decide (cidx g n = cidx g v)) as [E|E], (decide (v = n)) as [E'|E'];
    try done.
  - exfalso. apply E'. symmetry. by apply (cidx_inj g).
  - subst. done.
Qed.

Lemma P_insert par n v z :
  size par = gwidth g * gheight g -> inb g n -> inb g v ->
  P (<[Z.to_nat (cidx g n) := z]> par) v = if decide (v = n) then z else P par v.
Proof.
  intros Hsz Hn Hv. pose proof (cidx_range g n Hn). pose proof (cidx_range g v Hv).
  rewrite getp_insert by lia.
  destruct (decide (cidx g n = cidx g v)) as [E|E], (decide (v = n)) as [E'|E'];
    try done.
  - exfalso. apply E'. symmetry. by apply (cidx_inj g).
  - subst. done.
Qed.

Lemma D_lookup d v :
  size d = gwidth g * gheight g -> inb g v -> d !! Z.to_nat (cidx g v) = Some (D d v).
Proof.
  intros Hsz Hv. pose proof (cidx_range g v Hv).
  destruct (at_ok d (cidx g v)) as (z & _ & Hz); [lia|].
  by rewrite (getd_lookup _ _ _ Hz).
Qed.

Lemma seen_insert d n z :
  size d = gwidth g * gheight g -> inb g n -> D d n = -1 -> z <> -1 ->
  seen (<[Z.to_nat (cidx g n) := z]> d) = seen d + 1.
Proof.
  intros Hsz Hn Hd Hz. unfold seen. rewrite size_insert.
  pose proof (D_lookup d n Hsz Hn) as Hl. rewrite Hd in Hl.
  pose proof (unseen_insert d _ z Hl Hz). lia.
Qed.

(** The state set up before the [while] loop. *)
Lemma inv_init :
  let n := Z.to_nat (gwidth g * gheight g) in
  Inv g start [start] (<[Z.to_nat (cidx g start) := 0]> (replicate n (-1)))
      (replicate n (QPt (-1) (-1))).
Proof.
  intros n. pose proof (cidx_range g start Hstart) as Hr.
  assert (Hsz : size (replicate n (-1)) = gwidth g * gheight g).
  { unfold size. rewrite length_replicate. lia. }
  assert (HD0 : forall v, inb g v -> D (replicate n (-1)) v = -1).
  { intros v Hv. pose proof (cidx_range g v Hv). unfold getd.
    rewrite lookup_replicate_2; [done|lia]. }
  assert (HD : forall v, inb g v ->
            D (<[Z.to_nat (cidx g start) := 0]> (replicate n (-1))) v
            = if decide (v = start) then 0 else -1).
  { intros v Hv. rewrite D_insert by done. destruct (decide (v = start)); auto. }
  split.
  - by rewrite size_insert.
  - unfold size. rewrite length_replicate. lia.
  - intros i z Hl.
    assert (Hs : seen (<[Z.to_nat (cidx g start) := 0]> (replicate n (-1))) = 1).
    { rewrite seen_insert by (auto; lia). unfold seen. rewrite unseen_replicate.
      unfold size. rewrite length_replicate. lia. }
    rewrite Hs. destruct (decide (i = Z.to_nat (cidx g start))) as [->|Hne].
    + rewrite list_lookup_insert_eq in Hl by (rewrite length_replicate; lia).
      injection Hl as <-. lia.
    + rewrite list_lookup_insert_ne in Hl by done.
      apply lookup_replicate in Hl as [-> _]. lia.
  - rewrite HD by done. by rewrite decide_True.
  - intros u Hu. apply list_elem_of_singleton in Hu as ->. split; [done|].
    rewrite HD by done. rewrite decide_True by done. lia.
  - simpl. repeat constructor.
  - intros v a Hv Ha. apply list_elem_of_singleton in Ha as ->.
    rewrite !HD by done. rewrite (decide_True (P:=start = start)) by done.
    destruct (decide (v = start)); lia.
  - intros v Hv Hd Hne. rewrite HD in Hd by done. rewrite decide_False in Hd by done. lia.
  - intros v w Hv Hd Hq Hs. rewrite HD in Hd by done.
    destruct (decide (v = start)) as [->|]; [|lia].
    exfalso. apply Hq. by apply list_elem_of_singleton.
Qed.

(** A cell of the queue has a distance; the head has the least one. *)
Lemma inv_head_le Q d par u a :
  Inv g start (u :: Q) d par -> a ∈ u :: Q -> D d u <= D d a.
Proof.
  intros HI Ha. pose proof (inv_sorted _ _ _ _ _ HI) as Hs. simpl in Hs.
  apply StronglySorted_inv in Hs as [_ Hall].
  apply elem_of_cons in Ha as [->|Ha]; [lia|].
  rewrite Forall_forall in Hall. apply Hall.
  apply list_elem_of_fmap. by exists a.
Qed.

(** Marking and enqueuing an unseen free neighbour [n] of the head [u]. *)
Lemma inv_push Q d par u n :
  Inv g start (u :: Q) d par ->
  step g u n -> D d n = -1 ->
  Inv g start (u :: Q ++ [n])
      (<[Z.to_nat (cidx g n) := D d u + 1]> d)
      (<[Z.to_nat (cidx g n) := u]> par).
Proof.
  intros HI Hstep Hn. destruct Hstep as (Hadj & Hnb & Hfree).
  pose proof (inv_size_d _ _ _ _ _ HI) as Hsd.
  pose proof (inv_size_p _ _ _ _ _ HI) as Hsp.
  destruct (inv_queue _ _ _ _ _ HI u) as [Hub Hud]; [by left|].
  assert (Hkeep : forall v, inb g v -> 0 <= D d v ->
            D (<[Z.to_nat (cidx g n) := D d u + 1]> d) v = D d v).
  { intros v Hv Hd. rewrite D_insert by done.
    destruct (decide (v = n)) as [->|]; [lia|done]. }
  assert (Hnew : D (<[Z.to_nat (cidx g n) := D d u + 1]> d) n = D d u + 1).
  { rewrite D_insert by done. by rewrite decide_True. }
  assert (HQ : forall a, a ∈ u :: Q -> inb g a /\ 0 <= D d a /\
            D (<[Z.to_nat (cidx g n) := D d u + 1]> d) a = D d a).
  { intros a Ha. destruct (inv_queue _ _ _ _ _ HI a Ha) as [? ?]. auto. }
  split.
  - by rewrite size_insert.
  - by rewrite size_insert.
  - intros i z Hl. rewrite seen_insert by (auto; lia).
    pose proof (cidx_range g n Hnb) as Hr.
    destruct (decide (i = Z.to_nat (cidx g n))) as [->|Hne].
    + rewrite list_lookup_insert_eq in Hl by (unfold size in Hsd; lia).
      injection Hl as <-.
      pose proof (inv_vals _ _ _ _ _ HI _ _ (D_lookup d u Hsd Hub)). lia.
    + rewrite list_lookup_insert_ne in Hl by done.
      pose proof (inv_vals _ _ _ _ _ HI _ _ Hl). lia.
  - rewrite Hkeep; [apply (inv_start _ _ _ _ _ HI)|done|].
    rewrite (inv_start _ _ _ _ _ HI). lia.
  - intros a Ha. rewrite app_comm_cons in Ha. apply elem_of_app in Ha as [Ha|Ha].
    + destruct (HQ a Ha) as (? & ? & ->). auto.
    + apply list_elem_of_singleton in Ha as ->. rewrite Hnew. split; [done|lia].
  - rewrite app_comm_cons, map_app. simpl map at 2. rewrite Hnew.
    assert (E : map (fun a => D (<[Z.to_nat (cidx g n) := D d u + 1]> d) a) (u :: Q)
                = map (fun a => D d a) (u :: Q)).
    { apply map_ext_in. intros a Ha. apply list_elem_of_In in Ha.
      by destruct (HQ a Ha) as (_ & _ & ->). }
    rewrite E. apply sorted_snoc; [apply (inv_sorted _ _ _ _ _ HI)|].
    rewrite Forall_forall. intros z Hz. apply list_elem_of_fmap in Hz as (a & -> & Ha).
    destruct (HQ a Ha) as (Hab & _ & _).
    apply (inv_bound _ _ _ _ _ HI a u Hab). by left.
  - intros v a Hv Ha. rewrite app_comm_cons in Ha.
    assert (Hv' : D (<[Z.to_nat (cidx g n) := D d u + 1]> d) v <= D d u + 1).
    { rewrite D_insert by done. destruct (decide (v = n)); [lia|].
      apply (inv_bound _ _ _ _ _ HI v u Hv). by left. }
    apply elem_of_app in Ha as [Ha|Ha].
    + destruct (HQ a Ha) as (_ & _ & ->).
      rewrite D_insert by done. destruct (decide (v = n)) as [->|].
      * pose proof (inv_head_le _ _ _ _ _ HI Ha). lia.
      * by apply (inv_bound _ _ _ _ _ HI).
    + apply list_elem_of_singleton in Ha as ->. rewrite Hnew. lia.
  - intros v Hv Hd Hne. rewrite P_insert by done. rewrite (D_insert d n v) in * by done.
    destruct (decide (v = n)) as [->|Hvn].
    + rewrite Hkeep by done. split; [done|]. split; [done|]. split; [done|]. by split.
    + destruct (inv_tree _ _ _ _ _ HI v Hv Hd Hne) as (Hpb & Hpd & Hpe & Hps).
      rewrite Hkeep by done. auto.
  - intros v w Hv Hd Hq Hs. rewrite (D_insert d n v) in * by done.
    destruct (decide (v = n)) as [->|Hvn].
    { exfalso. apply Hq. rewrite app_comm_cons. apply elem_of_app. right. by left. }
    assert (Hq' : v ∉ u :: Q).
    { intros Hin. apply Hq. rewrite app_comm_cons. apply elem_of_app. by left. }
    pose proof (inv_closed _ _ _ _ _ HI v w Hv Hd Hq' Hs) as Hw.
    destruct Hs as (_ & Hwb & _). rewrite Hkeep by (done || lia). done.
Qed.

(** When every free neighbour of the head is seen, the head may leave. *)
Lemma inv_pop Q d par u :
  Inv g start (u :: Q) d par ->
  (forall w, step g u w -> 0 <= D d w <= D d u + 1) ->
  Inv g start Q d par.
Proof.
  intros HI Hu. split.
  - apply (inv_size_d _ _ _ _ _ HI).
  - apply (inv_size_p _ _ _ _ _ HI).
  - apply (inv_vals _ _ _ _ _ HI).
  - apply (inv_start _ _ _ _ _ HI).
  - intros a Ha. apply (inv_queue _ _ _ _ _ HI). by right.
  - pose proof (inv_sorted _ _ _ _ _ HI) as Hs. simpl in Hs.
    by apply StronglySorted_inv in Hs as [Hs _].
  - intros v a Hv Ha. apply (inv_bound _ _ _ _ _ HI); [done|by right].
  - apply (inv_tree _ _ _ _ _ HI).
  - intros v w Hv Hd Hq Hs. destruct (decide (v = u)) as [->|Hne]; [by apply Hu|].
    apply (inv_closed _ _ _ _ _ HI v w Hv Hd); [|done].
    intros Hin. apply elem_of_cons in Hin as [?|?]; done.
Qed.

Lemma visit_ok Q d par u k :
  Inv g start (u :: Q) d par -> 0 <= k < 4 ->
  exists Q' d' par',
    BFS.visit g (gwidth g) (gheight g) u k (BFS.St Q d par) = Ok (BFS.St Q' d' par') /\
    Inv g start (u :: Q') d' par' /\
    (unseen d' + length Q' = unseen d + length Q)%nat /\
    (forall v, inb g v -> 0 <= D d v -> D d' v = D d v) /\
    (forall w, nbr u k w -> step g u w -> 0 <= D d' w <= D d u + 1).
Proof.
  intros HI Hk.
  pose proof (inv_size_d _ _ _ _ _ HI) as Hsd.
  pose proof (inv_size_p _ _ _ _ _ HI) as Hsp.
  destruct (inv_queue _ _ _ _ _ HI u) as [Hub Hud]; [by left|].
  destruct (at_ok BFS.dx k) as (dxk & Edx & _); [done|].
  destruct (at_ok BFS.dy k) as (dyk & Edy & _); [done|].
  assert (Hsame : forall w, nbr u k w -> w = QPt (px u + dxk) (py u + dyk)).
  { intros w (a & b & Ea & Eb & ->). congruence. }
  unfold BFS.visit. rewrite Edx, Edy. cbn [bind BFS.queue BFS.dist BFS.parent].
  set (n := QPt (px u + dxk) (py u + dyk)) in *.
  destruct ((px u + dxk <? 0) || (py u + dyk <? 0) || (px u + dxk >=? gwidth g)
            || (py u + dyk >=? gheight g)) eqn:Eb.
  { exists Q, d, par. repeat (split; [done|]). intros w Hw (_ & Hwb & _).
    rewrite (Hsame w Hw) in Hwb. unfold inb, n in Hwb. simpl in Hwb. lia. }
  assert (Hnb : inb g n) by (unfold inb, n; simpl; lia).
  pose proof (at2_cell g n Hrect Hnb) as Ec. unfold n at 1 2 in Ec. simpl in Ec.
  rewrite Ec. cbn [bind].
  destruct (cell g n) eqn:Efree; cbn [negb].
  2:{ exists Q, d, par. repeat (split; [done|]). intros w Hw (_ & _ & Hf).
      rewrite (Hsame w Hw) in Hf. congruence. }
  pose proof (cidx_range g n Hnb) as Hnr. pose proof (cidx_range g u Hub) as Hur.
  change (BFS.idx (gwidth g) (px u + dxk) (py u + dyk)) with (cidx g n).
  change (BFS.idx (gwidth g) (px u) (py u)) with (cidx g u).
  rewrite (at_getd d (cidx g n)) by lia. cbn [bind].
  destruct (Z.eqb_spec (D d n) (-1)) as [En|En]; cbn [negb].
  2:{ exists Q, d, par. repeat (split; [done|]). intros w Hw _.
      rewrite (Hsame w Hw).
      pose proof (inv_vals _ _ _ _ _ HI _ _ (D_lookup d n Hsd Hnb)).
      assert (D d n <= D d u + 1) by (apply (inv_bound _ _ _ _ _ HI); [done|by left]).
      lia. }
  rewrite (at_getd d (cidx g u)) by lia. cbn [bind].
  rewrite set_at_ok by lia. cbn [bind]. rewrite set_at_ok by lia. cbn [bind].
  assert (Hst : step g u n).
  { split; [|done]. apply (deltas_adjacent k); done. }
  eexists _, _, _. split; [reflexivity|]. split; [by apply inv_push|].
  split; [|split].
  - rewrite length_app. simpl.
    pose proof (D_lookup d n Hsd Hnb) as Hl. rewrite En in Hl.
    pose proof (unseen_insert d _ (D d u + 1) Hl ltac:(lia)). lia.
  - intros v Hv Hd. rewrite D_insert by done.
    destruct (decide (v = n)) as [->|]; [lia|done].
  - intros w Hw _. rewrite (Hsame w Hw). rewrite D_insert by done.
    rewrite decide_True by done. lia.
Qed.

(** The four iterations of the inner loop for the head [u]. *)
Lemma visits_ok Q d par u :
  Inv g start (u :: Q) d par ->
  exists Q' d' par',
    forZ 0 4 (BFS.visit g (gwidth g) (gheight g) u) (BFS.St Q d par)
      = Ok (BFS.St Q' d' par') /\
    Inv g start Q' d' par' /\
    (unseen d' + length Q' = unseen d + length Q)%nat.
Proof.
  intros HI.
  destruct (inv_queue _ _ _ _ _ HI u) as [Hub Hud]; [by left|].
  pose (R := fun (k : Z) (st : BFS.state) =>
    Inv g start (u :: BFS.queue st) (BFS.dist st) (BFS.parent st) /\
    (unseen (BFS.dist st) + length (BFS.queue st) = unseen d + length Q)%nat /\
    D (BFS.dist st) u = D d u /\
    (forall j w, 0 <= j < k -> nbr u j w -> step g u w ->
                 0 <= D (BFS.dist st) w <= D d u + 1)).
  destruct (forZ_inv R (BFS.visit g (gwidth g) (gheight g) u) 0 4 (BFS.St Q d par))
    as ([Q' d' par'] & E & HI' & Hm & Hu & Hcl).
  - lia.
  - unfold R; simpl. repeat (split; [done|]). intros j w Hj. lia.
  - intros k [Qk dk park] Hk (HIk & Hmk & Huk & Hclk). simpl in *.
    destruct (visit_ok Qk dk park u k HIk Hk) as (Q2 & d2 & par2 & E2 & HI2 & Hm2 & Hkeep & Hnew).
    exists (BFS.St Q2 d2 par2). split; [done|]. unfold R; simpl.
    split; [done|]. split; [lia|]. split; [rewrite Hkeep; [done|done|lia]|].
    intros j w Hj Hjw Hs. destruct (decide (j = k)) as [->|Hne].
    + rewrite <- Huk. by apply Hnew.
    + assert (Hold : 0 <= D dk w <= D d u + 1) by (apply (Hclk j); [lia|done|done]).
      destruct Hs as (_ & Hwb & _). rewrite Hkeep by (done || lia). done.
  - simpl in *. exists Q', d', par'. split; [done|]. split; [|done].
    apply (inv_pop Q' d' par' u HI'). intros w Hs.
    destruct (adjacent_cases u w) as (k & Hk & dxk & dyk & Ex & Ey & ->);
      [by destruct Hs|].
    rewrite Hu. apply (Hcl k); [done| |done]. by exists dxk, dyk.
Qed.

(** The [while] loop returns, in a state where the queue is exhausted or the
    goal has just been dequeued. *)
Lemma loop_ok goal fuel :
  forall Q d par,
    Inv g start Q d par ->
    (unseen d + length Q < fuel)%nat ->
    exists Q' d' par' Qi,
      BFS.loop fuel g (gwidth g) (gheight g) goal (BFS.St Q d par)
        = Ok (BFS.St Q' d' par') /\
      Inv g start Qi d' par' /\ (Qi = [] \/ exists r, Qi = goal :: r).
Proof.
  induction fuel as [|fuel IH]; intros Q d par HI Hm; [lia|].
  simpl. destruct Q as [|u Q].
  - exists [], d, par, []. auto.
  - destruct (decide (u = goal)) as [->|Hne].
    + exists Q, d, par, (goal :: Q). eauto.
    + destruct (visits_ok Q d par u HI) as (Q2 & d2 & par2 & -> & HI2 & Hm2).
      cbn [bind]. apply IH; [done|]. simpl in Hm. lia.
Qed.

(** Every route from [start] ends in a seen cell, unless a pending cell is
    nearer than the route is long. *)
Lemma route_seen Q d par rest :
  Inv g start Q d par ->
  route g start rest ->
  (0 <= D d (List.last rest start) <= Z.of_nat (length rest)) \/
  (exists a, a ∈ Q /\ D d a < Z.of_nat (length rest)).
Proof.
  intros HI. induction rest as [|w rest IH] using rev_ind; intros Hr.
  - left. simpl. rewrite (inv_start _ _ _ _ _ HI). lia.
  - apply route_snoc in Hr as [Hr Hs]. rewrite last_snoc, length_app. simpl.
    destruct (IH Hr) as [Hd|(a & Ha & Hd)].
    + set (v := List.last rest start) in *.
      assert (Hvb : inb g v).
      { destruct rest as [|x rest] using rev_ind; [done|].
        apply route_snoc in Hr as [_ (_ & Hb & _)]. unfold v. by rewrite last_snoc. }
      destruct (decide (v ∈ Q)) as [Hin|Hout].
      * right. exists v. split; [done|lia].
      * left. pose proof (inv_closed _ _ _ _ _ HI v w Hvb ltac:(lia) Hout Hs). lia.
    + right. exists a. split; [done|lia].
Qed.

Lemma final_dist goal Q d par rest :
  Inv g start Q d par -> (Q = [] \/ exists r, Q = goal :: r) ->
  connects g start goal rest ->
  0 <= D d goal <= Z.of_nat (length rest).
Proof.
  intros HI HQ [Hr Hlast].
  destruct (route_seen Q d par rest HI Hr) as [Hd|(a & Ha & Hd)].
  - by rewrite Hlast in Hd.
  - destruct HQ as [->|(r & ->)]; [by apply elem_of_nil in Ha|].
    pose proof (inv_head_le _ _ _ _ a HI Ha).
    destruct (inv_queue _ _ _ _ _ HI goal) as [_ ?]; [by left|]. lia.
Qed.

(** A seen cell is the end of a route that is as long as its distance. *)
Lemma seen_route Q d par :
  Inv g start Q d par ->
  forall n v, inb g v -> D d v = Z.of_nat n ->
    exists rest, connects g start v rest /\ length rest = n.
Proof.
  intros HI. induction n as [|n IH]; intros v Hv Hd.
  - destruct (decide (v = start)) as [->|Hne]; [by exists []|].
    destruct (inv_tree _ _ _ _ _ HI v Hv ltac:(lia) Hne) as (_ & ? & ? & _). lia.
  - assert (Hne : v <> start).
    { intros ->. rewrite (inv_start _ _ _ _ _ HI) in Hd. lia. }
    destruct (inv_tree _ _ _ _ _ HI v Hv ltac:(lia) Hne) as (Hpb & Hpd & Hpe & Hps).
    destruct (IH (P par v) Hpb ltac:(lia)) as (rest & [Hr Hl] & Hlen).
    exists (rest ++ [v]). split; [split|].
    + apply route_snoc. split; [done|]. by rewrite Hl.
    + apply last_snoc.
    + rewrite length_app. simpl. lia.
Qed.

(** The reconstruction loop returns the cells of such a route, goal first. *)
Lemma walkBack_ok Q d par :
  Inv g start Q d par ->
  forall n v acc fuel, inb g v -> D d v = Z.of_nat n -> (n < fuel)%nat ->
    exists rest,
      BFS.walkBack fuel (gwidth g) par start v acc = Ok (acc ++ rev (start :: rest)) /\
      connects g start v rest /\ length rest = n.
Proof.
  intros HI. pose proof (inv_size_p _ _ _ _ _ HI) as Hsp.
  induction n as [|n IH]; intros v acc fuel Hv Hd Hf;
    (destruct fuel as [|fuel]; [lia|]); simpl;
    (destruct (decide (v = QPt (-1) (-1))) as [->|_];
      [destruct Hv as [Hx _]; simpl in Hx; lia|]).
  - destruct (decide (v = start)) as [->|Hne]; [by exists []|].
    destruct (inv_tree _ _ _ _ _ HI v Hv ltac:(lia) Hne) as (_ & ? & ? & _). lia.
  - assert (Hne : v <> start).
    { intros ->. rewrite (inv_start _ _ _ _ _ HI) in Hd. lia. }
    rewrite decide_False by done.
    destruct (inv_tree _ _ _ _ _ HI v Hv ltac:(lia) Hne) as (Hpb & Hpd & Hpe & Hps).
    pose proof (cidx_range g v Hv) as Hr.
    change (BFS.idx (gwidth g) (px v) (py v)) with (cidx g v).
    rewrite (at_getp par (cidx g v)) by lia. cbn [bind].
    destruct (IH (P par v) (acc ++ [v]) fuel Hpb ltac:(lia) ltac:(lia))
      as (rest & E & [Hrt Hl] & Hlen).
    exists (rest ++ [v]). split; [|split; [split|]].
    + rewrite E. rewrite <- app_assoc. f_equal. simpl.
      rewrite rev_app_distr. simpl. done.
    + apply route_snoc. split; [done|]. by rewrite Hl.
    + apply last_snoc.
    + rewrite length_app. simpl. lia.
Qed.

(** [bfsPath] up to the test of [dist[idx(goal)]]: the loop has returned and
    the invariant holds of the arrays that the test and the reconstruction read. *)
Lemma bfsPath_run goal :
  inb g goal ->
  exists Q d par,
    Inv g start Q d par /\ (Q = [] \/ exists r, Q = goal :: r) /\
    BFS.bfsPath g start goal =
      (if D d goal =? -1 then Ok []
       else path <~ BFS.walkBack (S (Z.to_nat (gwidth g * gheight g))) (gwidth g)
                      par start goal [] ;;
            Ok (rev path)).
Proof.
  intros Hgoal. pose proof (cidx_range g start Hstart) as Hsr.
  pose proof (cidx_range g goal Hgoal) as Hgr.
  set (n := Z.to_nat (gwidth g * gheight g)).
  pose proof inv_init as HI0. cbv zeta in HI0. fold n in HI0.
  destruct (loop_ok goal (S n) _ _ _ HI0) as (Q' & d' & par' & Qi & El & HI & HQ).
  { assert (Hl : replicate n (-1) !! Z.to_nat (cidx g start) = Some (-1)).
    { apply lookup_replicate_2. unfold n. lia. }
    pose proof (unseen_insert _ _ 0 Hl ltac:(lia)) as Hu.
    rewrite unseen_replicate in Hu. simpl. lia. }
  exists Qi, d', par'. split; [done|]. split; [done|]. subst n.
  unfold BFS.bfsPath. destruct g as [|row0 g'] eqn:Eg.
  { destruct Hstart as [_ Hy]. unfold gheight, size in Hy. simpl in Hy. lia. }
  rewrite <- Eg in *.
  assert (Hh : (size g =? 0) = false).
  { apply Z.eqb_neq. destruct Hstart as [_ Hy]. unfold gheight in Hy. lia. }
  rewrite Hh. replace (at_ g 0) with (Ok row0) by (by rewrite Eg).
  cbn [bind]. replace (size row0) with (gwidth g) by (by rewrite Eg).
  change (size g) with (gheight g).
  change (BFS.idx (gwidth g) (px start) (py start)) with (cidx g start).
  change (BFS.idx (gwidth g) (px goal) (py goal)) with (cidx g goal).
  rewrite set_at_ok by (unfold size; rewrite length_replicate; lia).
  cbn [bind]. rewrite El. cbn [bind BFS.dist BFS.parent].
  rewrite (at_getd d' (cidx g goal)) by (rewrite (inv_size_d _ _ _ _ _ HI); lia).
  reflexivity.
Qed.

(** The distance of a seen cell is below the number of cells. *)
Lemma seen_bound Q d par v :
  Inv g start Q d par -> inb g v ->
  D d v < gwidth g * gheight g.
Proof.
  intros HI Hv. pose proof (inv_size_d _ _ _ _ _ HI) as Hsd.
  pose proof (inv_vals _ _ _ _ _ HI _ _ (D_lookup d v Hsd Hv)) as Hb.
  unfold seen in Hb. lia.
Qed.

End BFSInvariant.

Lemma connects_inb g s t rest : inb g s -> connects g s t rest -> inb g t.
Proof.
  intros Hs [Hr <-]. destruct rest as [|x rest] using rev_ind; [done|].
  apply route_snoc in Hr as [_ (_ & Hb & _)]. by rewrite last_snoc.
Qed.

(** C1. On a rectangular grid, whenever some route of moves into four-adjacent
    free cells leads from [start] to [goal], [bfsPath] returns a non-empty path
    [start :: path] that is itself such a route from [start] to [goal] (so it
    begins at start, ends at goal and consecutive cells are four-adjacent), and
    its number of moves is the shortest-route distance: no route from [start]
    to [goal] has fewer moves. *)
Theorem bfsPath_shortest (g : grid) (start goal : QPoint) (rest : list QPoint) :
  rect g -> inb g start -> connects g start goal rest ->
  exists path,
    BFS.bfsPath g start goal = Ok (start :: path) /\
    connects g start goal path /\
    shortest g start goal (length path).
Proof.
  intros Hrect Hstart Hc.
  pose proof (connects_inb g start goal rest Hstart Hc) as Hgoal.
  destruct (bfsPath_run g start Hrect Hstart goal Hgoal) as (Q & d & par & HI & HQ & ->).
  pose proof (final_dist g start Hstart goal Q d par rest HI HQ Hc) as Hd.
  destruct (Z.eqb_spec (getd d (cidx g goal)) (-1)) as [E|_]; [lia|].
  pose proof (seen_bound g start Q d par goal HI Hgoal) as Hb.
  destruct (walkBack_ok g start Q d par HI (Z.to_nat (getd d (cidx g goal))) goal []
              (S (Z.to_nat (gwidth g * gheight g))) Hgoal ltac:(lia) ltac:(lia))
    as (path & -> & Hp & Hlen).
  cbn [bind app]. rewrite rev_involutive.
  exists path. split; [done|]. split; [done|]. split.
  - by exists path.
  - intros rest' Hc'.
    pose proof (final_dist g start Hstart goal Q d par rest' HI HQ Hc'). lia.
Qed.

(** C4. On a rectangular grid with [start] and [goal] inside it, when no route
    of moves into four-adjacent free cells leads from [start] to [goal],
    [bfsPath] returns normally with the empty path. *)
Theorem bfsPath_unreachable (g : grid) (start goal : QPoint) :
  rect g -> inb g start -> inb g goal ->
  (forall rest, ~ connects g start goal rest) ->
  BFS.bfsPath g start goal = Ok [].
Proof.
  intros Hrect Hstart Hgoal Hno.
  destruct (bfsPath_run g start Hrect Hstart goal Hgoal) as (Q & d & par & HI & HQ & ->).
  destruct (Z.eqb_spec (getd d (cidx g goal)) (-1)) as [_|Hne]; [done|].
  exfalso.
  pose proof (inv_size_d _ _ _ _ _ HI) as Hsd.
  pose proof (inv_vals _ _ _ _ _ HI _ _ (D_lookup g d goal Hsd Hgoal)) as Hv.
  destruct (seen_route g start Q d par HI (Z.to_nat (getd d (cidx g goal))) goal Hgoal
              ltac:(lia)) as (rest & Hc & _).
  by apply (Hno rest).
Qed.

(** Conversely, the empty path is returned only when there is no route. *)
Lemma bfsPath_empty_only_unreachable (g : grid) (start goal : QPoint) rest :
  rect g -> inb g start -> connects g start goal rest ->
  BFS.bfsPath g start goal <> Ok [].
Proof.
  intros Hrect Hstart Hc.
  pose proof (connects_inb g start goal rest Hstart Hc) as Hgoal.
  destruct (bfsPath_run g start Hrect Hstart goal Hgoal) as (Q & d & par & HI & HQ & ->).
  pose proof (final_dist g start Hstart goal Q d par rest HI HQ Hc) as Hd.
  destruct (Z.eqb_spec (getd d (cidx g goal)) (-1)) as [E|_]; [lia|].
  pose proof (seen_bound g start Q d par goal HI Hgoal) as Hb.
  destruct (walkBack_ok g start Q d par HI (Z.to_nat (getd d (cidx g goal))) goal []
              (S (Z.to_nat (gwidth g * gheight g))) Hgoal ltac:(lia) ltac:(lia))
    as (path & -> & _).
  cbn [bind app]. rewrite rev_involutive. discriminate.
Qed.

(** C10. With [start] and [goal] inside a rectangular grid, [bfsPath] returns:
    no access to the grid, [dist] or [parent] is out of range (and neither loop
    runs on). The function tests neither the position nor the value of the two
    points before it indexes [dist] at them: with a [start] or a [goal] outside
    the grid an access is out of range, and a blocked [start] is searched from
    like a free one. *)
Theorem bfsPath_in_range :
  (forall (g : grid) (start goal : QPoint),
      rect g -> inb g start -> inb g goal ->
      exists path, BFS.bfsPath g start goal = Ok path) /\
  BFS.bfsPath [[true]] (QPt 1 0) (QPt 0 0) = Err OutOfRange /\
  BFS.bfsPath [[true]] (QPt 0 0) (QPt 1 0) = Err OutOfRange /\
  BFS.bfsPath [[false; true]] (QPt 0 0) (QPt 1 0) = Ok [QPt 0 0; QPt 1 0] /\
  BFS.bfsPath [[false]] (QPt 0 0) (QPt 0 0) = Ok [QPt 0 0].
Proof.
  split; [|repeat split; reflexivity].
  intros g start goal Hrect Hstart Hgoal.
  destruct (bfsPath_run g start Hrect Hstart goal Hgoal) as (Q & d & par & HI & HQ & ->).
  destruct (Z.eqb_spec (getd d (cidx g goal)) (-1)) as [_|Hne]; [by exists []|].
  pose proof (inv_size_d _ _ _ _ _ HI) as Hsd.
  pose proof (inv_vals _ _ _ _ _ HI _ _ (D_lookup g d goal Hsd Hgoal)) as Hv.
  pose proof (seen_bound g start Q d par goal HI Hgoal) as Hb.
  destruct (walkBack_ok g start Q d par HI (Z.to_nat (getd d (cidx g goal))) goal []
              (S (Z.to_nat (gwidth g * gheight g))) Hgoal ltac:(lia) ltac:(lia))
    as (path & -> & _). cbn [bind]. eauto.
Qed.

(** With a free [start], the cells of a route are the free cells of a
    four-connected path. *)
Lemma route_free g s rest :
  inb g s -> cell g s = true -> route g s rest ->
  Forall (fun p => inb g p /\ cell g p = true) (s :: rest).
Proof.
  revert s. induction rest as [|v rest IH]; intros s Hs Hf Hr.
  - constructor; [done|constructor].
  - destruct Hr as [(_ & Hvb & Hvf) Hr]. constructor; [done|]. by apply IH.
Qed.

Ltac in_grid := unfold inb, gwidth, gheight, size; simpl; lia.
Ltac a_step := split; [unfold adjacent; simpl; lia|split; [in_grid|reflexivity]].

Lemma bfsPath_shortest_witness :
  exists path,
    BFS.bfsPath sampleMaze (QPt 0 0) (QPt 3 2) = Ok (QPt 0 0 :: path) /\
    connects sampleMaze (QPt 0 0) (QPt 3 2) path /\
    shortest sampleMaze (QPt 0 0) (QPt 3 2) (length path).
Proof.
  apply (bfsPath_shortest sampleMaze (QPt 0 0) (QPt 3 2)
           [QPt 0 1; QPt 1 1; QPt 2 1; QPt 2 2; QPt 3 2]).
  - repeat constructor.
  - in_grid.
  - split; [|reflexivity]. simpl. repeat (split; [a_step|]). exact I.
Defined.

Lemma walledRow_no_route rest : ~ connects walledRow (QPt 0 0) (QPt 2 0) rest.
Proof.
  intros [Hr Hl]. destruct rest as [|[x y] rest]; [discriminate Hl|].
  destruct Hr as [(Hadj & Hin & Hfree) _].
  unfold adjacent, inb, gwidth, gheight, size in *. simpl in *.
  assert (x = 1 /\ y = 0) as [-> ->] by lia. discriminate Hfree.
Defined.

Lemma bfsPath_unreachable_witness :
  BFS.bfsPath walledRow (QPt 0 0) (QPt 2 0) = Ok [].
Proof.
  apply (bfsPath_unreachable walledRow (QPt 0 0) (QPt 2 0)).
  - repeat constructor.
  - in_grid.
  - in_grid.
  - exact walledRow_no_route.
Defined.

Lemma bfsPath_in_range_witness :
  exists path, BFS.bfsPath sampleMaze (QPt 0 0) (QPt 3 2) = Ok path.
Proof.
  apply (proj1 bfsPath_in_range sampleMaze (QPt 0 0) (QPt 3 2)).
  - repeat constructor.
  - in_grid.
  - in_grid.
Defined.

(** ** findOpenings *)

Lemma seqZ_snoc x : 0 <= x -> seqZ 0 (x + 1) = seqZ 0 x ++ [x].
Proof.
  intros Hx. rewrite seqZ_app by lia. by f_equal.
Qed.

Lemma filter_snoc {A} (f : A -> bool) (l : list A) (a : A) :
  List.filter f (l ++ [a]) = if f a then List.filter f l ++ [a] else List.filter f l.
Proof. rewrite List.filter_app. simpl. destruct (f a); [done|]. by rewrite app_nil_r. Qed.

Lemma last_cons_Some {A} (l : list A) a d : last (a :: l) = Some (List.last (a :: l) d).
Proof.
  revert a. induction l as [|b l IH]; intros a; [done|].
  change (last (a :: b :: l)) with (last (b :: l)).
  change (List.last (a :: b :: l) d) with (List.last (b :: l) d). apply IH.
Qed.

Lemma collectOpenings_scan (g : grid) :
  rect g -> 1 <= gwidth g ->
  collectOpenings g (gwidth g) (gheight g)
  = Ok (List.filter (cell g) (scanOrder (gwidth g) (gheight g))).
Proof.
  intros Hrect Hw.
  assert (Hh : 1 <= gheight g).
  { destruct g; [simpl in Hw; lia|]. unfold gheight, size. simpl. lia. }
  unfold collectOpenings, scanOrder.
  lazymatch goal with
  | |- bind (forZ 0 _ ?body ?init) _ = _ =>
      destruct (forZ_inv
        (fun x ops => ops = List.filter (cell g)
           (flat_map (fun x => [QPt x 0; QPt x (gheight g - 1)]) (seqZ 0 x)))
        body 0 (gwidth g) init) as (ops1 & -> & ->); [lia|done| |]
  end.
  { intros x ops Hx ->.
    rewrite at2_xy by (done || lia).
    cbn [bind].
    rewrite at2_xy by (done || lia).
    cbn [bind]. eexists. split; [reflexivity|].
    rewrite seqZ_snoc by lia. rewrite flat_map_app. simpl flat_map at 2.
    rewrite List.filter_app. simpl.
    destruct (cell g (QPt x 0)), (cell g (QPt x (gheight g - 1)));
      rewrite <- ?app_assoc; simpl; by rewrite ?app_nil_r. }
  cbn [bind].
  lazymatch goal with
  | |- forZ 0 _ ?body ?init = _ =>
      destruct (forZ_inv
        (fun y ops => ops = List.filter (cell g)
           (flat_map (fun x => [QPt x 0; QPt x (gheight g - 1)]) (seqZ 0 (gwidth g)) ++
            flat_map (fun y => [QPt 0 y; QPt (gwidth g - 1) y]) (seqZ 0 y)))
        body 0 (gheight g) init) as (ops2 & -> & ->); [lia| | |done]
  end.
  { simpl. by rewrite app_nil_r. }
  intros y ops Hy ->.
  rewrite at2_xy by (done || lia).
  cbn [bind].
  rewrite at2_xy by (done || lia).
  cbn [bind]. eexists. split; [reflexivity|].
  rewrite seqZ_snoc by lia. rewrite flat_map_app. simpl flat_map at 3.
  rewrite !List.filter_app. simpl.
  destruct (cell g (QPt 0 y)), (cell g (QPt (gwidth g - 1) y));
    rewrite <- ?app_assoc; simpl; by rewrite ?app_nil_r.
Qed.

(** C2 (as the code has it). On a rectangular grid with at least one column,
    the candidates are the free cells met in the order: for each column from
    left to right its top cell then its bottom cell, then for each row from
    top to bottom its left cell then its right cell; on success [start] is
    the first candidate and [goal] the last one. *)
Theorem findOpenings_scan_order (g : grid) :
  rect g -> 1 <= gwidth g ->
  collectOpenings g (gwidth g) (gheight g)
    = Ok (List.filter (cell g) (scanOrder (gwidth g) (gheight g))) /\
  forall s t, findOpenings g = Ok (Some (s, t)) ->
    head (List.filter (cell g) (scanOrder (gwidth g) (gheight g))) = Some s /\
    last (List.filter (cell g) (scanOrder (gwidth g) (gheight g))) = Some t.
Proof.
  intros Hrect Hw. split; [by apply collectOpenings_scan|].
  intros s t. unfold findOpenings.
  destruct g as [|row0 g'] eqn:Eg; [simpl in Hw; lia|]. rewrite <- Eg in *.
  destruct (size g =? 0); [discriminate|].
  replace (at_ g 0) with (Ok row0) by (by rewrite Eg). cbn [bind].
  replace (size row0) with (gwidth g) by (by rewrite Eg).
  change (size g) with (gheight g). rewrite collectOpenings_scan by done. cbn [bind].
  destruct (size _ <? 2); [discriminate|].
  destruct (List.filter _ _) as [|a l]; [discriminate|].
  intros [= <- <-]. split; [done|]. apply last_cons_Some.
Qed.

Lemma in_scanOrder gw gh p :
  1 <= gw -> 1 <= gh ->
  In p (scanOrder gw gh) <->
  (0 <= px p < gw /\ 0 <= py p < gh) /\
  (px p = 0 \/ px p = gw - 1 \/ py p = 0 \/ py p = gh - 1).
Proof.
  intros Hw Hh. unfold scanOrder. rewrite in_app_iff, !in_flat_map. split.
  - intros [(x & Hx & Hin)|(y & Hy & Hin)].
    + apply list_elem_of_In, elem_of_seqZ in Hx.
      destruct Hin as [<-|[<-|[]]]; simpl; lia.
    + apply list_elem_of_In, elem_of_seqZ in Hy.
      destruct Hin as [<-|[<-|[]]]; simpl; lia.
  - destruct p as [x y]. simpl. intros [[Hx Hy] [-> | [-> | [-> | ->]]]].
    + right. exists y. split; [apply list_elem_of_In, elem_of_seqZ; lia|by left].
    + right. exists y. split; [apply list_elem_of_In, elem_of_seqZ; lia|by right; left].
    + left. exists x. split; [apply list_elem_of_In, elem_of_seqZ; lia|by left].
    + left. exists x. split; [apply list_elem_of_In, elem_of_seqZ; lia|by right; left].
Qed.

(** [findOpenings] fails exactly when fewer than two candidates were listed. *)
Lemma findOpenings_none_iff (g : grid) :
  rect g -> 1 <= gwidth g ->
  findOpenings g = Ok None <->
  size (List.filter (cell g) (scanOrder (gwidth g) (gheight g))) < 2.
Proof.
  intros Hrect Hw. unfold findOpenings.
  destruct g as [|row0 g'] eqn:Eg; [simpl in Hw; lia|]. rewrite <- Eg in *.
  assert (Hh : (size g =? 0) = false).
  { apply Z.eqb_neq. rewrite Eg. unfold size. simpl. lia. }
  rewrite Hh. replace (at_ g 0) with (Ok row0) by (by rewrite Eg). cbn [bind].
  replace (size row0) with (gwidth g) by (by rewrite Eg).
  change (size g) with (gheight g). rewrite collectOpenings_scan by done. cbn [bind].
  destruct (Z.ltb_spec (size (List.filter (cell g) (scanOrder (gwidth g) (gheight g)))) 2)
    as [Hlt|Hge]; [done|].
  destruct (List.filter _ _) as [|a l]; [unfold size in Hge; simpl in Hge; lia|].
  split; [discriminate|lia].
Qed.

(** A failure is right: no two distinct border cells are free. *)
Lemma findOpenings_none_sound (g : grid) p q :
  rect g -> 1 <= gwidth g -> findOpenings g = Ok None ->
  inb g p -> onBorder g p -> cell g p = true ->
  inb g q -> onBorder g q -> cell g q = true ->
  p = q.
Proof.
  intros Hrect Hw Hnone Hp Hpb Hpf Hq Hqb Hqf.
  assert (Hh : 1 <= gheight g).
  { destruct g; [simpl in Hw; lia|]. unfold gheight, size. simpl. lia. }
  apply findOpenings_none_iff in Hnone; [|done..].
  assert (Hin : forall r, inb g r -> onBorder g r -> cell g r = true ->
            In r (List.filter (cell g) (scanOrder (gwidth g) (gheight g)))).
  { intros r Hr Hrb Hrf. apply filter_In. split; [|done]. by apply in_scanOrder. }
  pose proof (Hin p Hp Hpb Hpf) as Hip. pose proof (Hin q Hq Hqb Hqf) as Hiq.
  destruct (List.filter _ _) as [|a [|b l]].
  - destruct Hip.
  - destruct Hip as [<-|[]], Hiq as [<-|[]]. done.
  - unfold size in Hnone. simpl in Hnone. lia.
Qed.


Lemma findOpenings_scan_order_witness :
  collectOpenings twoOpenings (gwidth twoOpenings) (gheight twoOpenings)
    = Ok (List.filter (cell twoOpenings)
            (scanOrder (gwidth twoOpenings) (gheight twoOpenings))) /\
  forall s t, findOpenings twoOpenings = Ok (Some (s, t)) ->
    head (List.filter (cell twoOpenings)
            (scanOrder (gwidth twoOpenings) (gheight twoOpenings))) = Some s /\
    last (List.filter (cell twoOpenings)
            (scanOrder (gwidth twoOpenings) (gheight twoOpenings))) = Some t.
Proof.
  apply (findOpenings_scan_order twoOpenings).
  - repeat constructor.
  - vm_compute. discriminate.
Defined.

(** The claim C2 as the text has it: with the row-wise order, the first and
    the last free cell are not the cells that [findOpenings] returns. For
    [twoOpenings] the code returns start = (1,2) and goal = (2,0); row-wise,
    (2,0) comes first and (1,2) last. *)
Lemma findOpenings_not_row_wise :
  ~ (forall g s t, rect g -> findOpenings g = Ok (Some (s, t)) ->
       head (List.filter (cell g) (rowWiseOrder (gwidth g) (gheight g))) = Some s /\
       last (List.filter (cell g) (rowWiseOrder (gwidth g) (gheight g))) = Some t).
Proof.
  intros H.
  destruct (H twoOpenings (QPt 1 2) (QPt 2 0)) as [E _].
  - repeat constructor.
  - reflexivity.
  - vm_compute in E. discriminate E.
Qed.

(** C3 (the code at the failing input). One free border cell, a corner: the
    cell is listed by the column scan and by the row scan, the list has two
    entries, and [findOpenings] returns [true] with [start = goal]. *)
Theorem findOpenings_corner_counted_twice :
  freeBorderCells cornerOpening = [QPt 0 0] /\
  collectOpenings cornerOpening 2 2 = Ok [QPt 0 0; QPt 0 0] /\
  findOpenings cornerOpening = Ok (Some (QPt 0 0, QPt 0 0)).
Proof. repeat split; reflexivity. Qed.

(** ** Border sealing *)

Lemma same_eq a b : same a b = true <-> a = b.
Proof.
  unfold same. destruct a as [x y], b as [x' y']; simpl. split.
  - intros H. apply andb_prop in H as [Hx Hy].
    apply Z.eqb_eq in Hx, Hy. by subst.
  - intros [= -> ->]. by rewrite !Z.eqb_refl.
Qed.

Lemma cell_lookup (g : grid) p row b :
  0 <= px p -> 0 <= py p ->
  g !! Z.to_nat (py p) = Some row -> row !! Z.to_nat (px p) = Some b ->
  cell g p = b.
Proof.
  intros Hx Hy Hrow Hb. unfold cell, at2, at_.
  destruct (Z.ltb_spec (py p) 0); [lia|]. rewrite Hrow. cbn [bind].
  destruct (Z.ltb_spec (px p) 0); [lia|]. by rewrite Hb.
Qed.

Lemma shaped_refl g : rect g -> shaped g g.
Proof. by intros Hr. Qed.

Lemma shaped_inb g g' p : shaped g g' -> inb g p -> inb g' p.
Proof. intros (_ & Hw & Hh). unfold inb. by rewrite Hw, Hh. Qed.

(** [grid[y][x] = b] inside the grid changes that cell and no other. *)
Lemma set2_ok (g : grid) x y b :
  rect g -> inb g (QPt x y) ->
  exists g', set2 g y x b = Ok g' /\ shaped g g' /\
    forall p, inb g p -> cell g' p = if decide (p = QPt x y) then b else cell g p.
Proof.
  intros Hrect [Hx Hy]. simpl in Hx, Hy. unfold set2.
  destruct (at_ok g y) as (row & -> & Hrow); [done|]. cbn [bind].
  pose proof (rect_row g _ row Hrect Hrow) as Hsz.
  rewrite set_at_ok by lia. cbn [bind]. rewrite set_at_ok by done.
  eexists. split; [reflexivity|].
  assert (Hw : gwidth (<[Z.to_nat y := <[Z.to_nat x := b]> row]> g) = gwidth g).
  { destruct g as [|r0 g0]; [done|]. destruct (Z.to_nat y) eqn:Ey; simpl in *; [|done].
    injection Hrow as ->. apply size_insert. }
  split; [split; [|split]|].
  - unfold rect. rewrite Hw. apply Forall_insert; [done|]. by rewrite size_insert.
  - done.
  - unfold gheight. apply size_insert.
  - intros p [Hpx Hpy].
    destruct (at_ok g (py p)) as (rowp & _ & Hrowp); [done|].
    pose proof (rect_row g _ rowp Hrect Hrowp) as Hszp.
    destruct (at_ok rowp (px p)) as (c & _ & Hc); [lia|].
    rewrite (cell_lookup g p rowp c) by (done || lia).
    destruct (decide (py p = y)) as [Ey|Ey].
    + subst y. assert (rowp = row) by congruence. subst rowp.
      destruct (decide (px p = x)) as [Ex|Ex].
      * subst x. rewrite decide_True by (by destruct p).
        apply (cell_lookup _ p (<[Z.to_nat (px p) := b]> row)); [lia|lia| |].
        -- apply list_lookup_insert_eq. unfold gheight, size in Hy. lia.
        -- apply list_lookup_insert_eq. unfold size in Hsz. lia.
      * rewrite decide_False by (intros E; apply (f_equal px) in E; simpl in E; lia).
        apply (cell_lookup _ p (<[Z.to_nat x := b]> row)); [lia|lia| |].
        -- apply list_lookup_insert_eq. unfold gheight, size in Hy. lia.
        -- rewrite list_lookup_insert_ne by lia. done.
    + rewrite decide_False by (intros E; apply (f_equal py) in E; simpl in E; lia).
      apply (cell_lookup _ p rowp); [lia|lia| |done].
      rewrite list_lookup_insert_ne by lia. done.
Qed.

Lemma sealCell_ok (g g1 : grid) start goal c :
  shaped g g1 -> inb g c ->
  exists g2, sealCell start goal c g1 = Ok g2 /\ shaped g g2 /\
    forall p, inb g p ->
      cell g2 p = if decide (p = c /\ p <> start /\ p <> goal) then false else cell g1 p.
Proof.
  intros Hsh Hc. unfold sealCell.
  destruct (same c start) eqn:Es; [|destruct (same c goal) eqn:Et]; cbn [negb andb].
  - apply same_eq in Es. exists g1. split; [done|]. split; [done|]. intros p Hp.
    rewrite decide_False; [done|]. intros (-> & ? & _). done.
  - apply same_eq in Et. exists g1. split; [done|]. split; [done|]. intros p Hp.
    rewrite decide_False; [done|]. intros (-> & _ & ?). done.
  - assert (c <> start) by (intros E; apply same_eq in E; congruence).
    assert (c <> goal) by (intros E; apply same_eq in E; congruence).
    pose proof Hsh as (Hr1 & Hw1 & Hh1).
    destruct (set2_ok g1 (px c) (py c) false Hr1) as (g2 & E2 & (Hr2 & Hw2 & Hh2) & Hcell).
    { apply (shaped_inb g); [done|]. by destruct c. }
    exists g2. split; [done|]. split.
    { split; [done|]. split; congruence. }
    intros p Hp. rewrite Hcell by (by apply (shaped_inb g)).
    replace (QPt (px c) (py c)) with c by (by destruct c).
    destruct (decide (p = c)) as [->|Hne].
    + by rewrite decide_True.
    + rewrite decide_False; [done|]. by intros (? & _).
Qed.

Lemma sealInv_step (g g1 : grid) start goal c (S S' : QPoint -> Prop) :
  sealInv g S g1 -> inb g c ->
  (forall p, inb g p -> S' p <-> S p \/ (p = c /\ p <> start /\ p <> goal)) ->
  exists g2, sealCell start goal c g1 = Ok g2 /\ sealInv g S' g2.
Proof.
  intros [Hsh Hc1] Hc HS.
  destruct (sealCell_ok g g1 start goal c Hsh Hc) as (g2 & E & Hsh2 & Hc2).
  exists g2. split; [done|]. split; [done|]. intros p Hp.
  rewrite (Hc2 p Hp). destruct (Hc1 p Hp) as [H1 H2]. specialize (HS p Hp).
  destruct (decide (p = c /\ p <> start /\ p <> goal)) as [Hd|Hd]; split; intros HS'.
  - done.
  - exfalso. apply HS'. apply HS. by right.
  - apply H1. apply HS in HS' as [?|?]; done.
  - apply H2. intros ?. apply HS'. apply HS. by left.
Qed.

(** C5. On a rectangular grid with at least one column, the sealing step
    returns a grid of the same dimensions in which every border cell other
    than [start] and [goal] is [false], and in which [start], [goal] and every
    cell off the border have the value they had before. *)
Theorem sealBorder_spec (g : grid) (start goal : QPoint) :
  rect g -> 1 <= gwidth g ->
  exists g', sealBorder g start goal = Ok g' /\ shaped g g' /\
    (forall p, inb g p -> onBorder g p -> p <> start -> p <> goal ->
               cell g' p = false) /\
    (forall p, inb g p -> p = start \/ p = goal \/ ~ onBorder g p ->
               cell g' p = cell g p).
Proof.
  intros Hrect Hw.
  assert (Hh : 1 <= gheight g).
  { destruct g; [simpl in Hw; lia|]. unfold gheight, size. simpl. lia. }
  unfold sealBorder. destruct g as [|row0 g0] eqn:Eg; [simpl in Hw; lia|].
  rewrite <- Eg in *. replace (at_ g 0) with (Ok row0) by (by rewrite Eg).
  cbn [bind]. replace (size row0) with (gwidth g) by (by rewrite Eg).
  change (size g) with (gheight g). clear Eg row0 g0.
  lazymatch goal with
  | |- context [bind (forZ 0 _ ?body ?init) _] =>
      destruct (forZ_inv (fun x gx => sealInv g (sealedRows g start goal x) gx)
                  body 0 (gwidth g) init) as (g1 & -> & HI1); [lia| | |]
  end.
  { split; [by apply shaped_refl|]. intros p [Hx Hy]. split; [|done].
    intros (_ & ? & _). lia. }
  { intros x gx Hx HI.
    destruct (sealInv_step g gx start goal (QPt x 0)
                (sealedRows g start goal x)
                (fun p => sealedRows g start goal x p \/
                          (p = QPt x 0 /\ p <> start /\ p <> goal)) HI)
      as (ga & -> & HIa); [unfold inb; simpl; lia|done|]. cbn [bind].
    apply (sealInv_step g ga start goal (QPt x (gheight g - 1)) _ _ HIa);
      [unfold inb; simpl; lia|].
    intros [u v] [Hu Hv]. unfold sealedRows. simpl in *. split.
    - intros ([?|?] & ? & ? & ?); destruct (decide (u = x)) as [->|?];
        subst; (left; left; repeat split; auto; lia) || auto.
    - intros [[(? & ? & ? & ?)|(E & ? & ?)]|(E & ? & ?)];
        try injection E as -> ->; repeat split; auto; lia. }
  cbn [bind].
  lazymatch goal with
  | |- context [forZ 0 _ ?body ?init] =>
      destruct (forZ_inv
                  (fun y gy => sealInv g (fun p => sealedRows g start goal (gwidth g) p \/
                                                   sealedCols g start goal y p) gy)
                  body 0 (gheight g) init) as (g2 & -> & [Hsh HI2]); [lia| | |]
  end.
  { destruct HI1 as [Hsh HI1]. split; [done|]. intros p Hp.
    destruct (HI1 p Hp) as [H1 H2]. split.
    - intros [?|(_ & ? & _)]; [auto|destruct Hp; lia].
    - intros Hn. apply H2. intros ?. apply Hn. by left. }
  { intros y gy Hy HI.
    destruct (sealInv_step g gy start goal (QPt 0 y)
                (fun p => sealedRows g start goal (gwidth g) p \/
                          sealedCols g start goal y p)
                (fun p => (sealedRows g start goal (gwidth g) p \/
                           sealedCols g start goal y p) \/
                          (p = QPt 0 y /\ p <> start /\ p <> goal)) HI)
      as (ga & -> & HIa); [unfold inb; simpl; lia|done|]. cbn [bind].
    apply (sealInv_step g ga start goal (QPt (gwidth g - 1) y) _ _ HIa);
      [unfold inb; simpl; lia|].
    intros [u v] [Hu Hv]. unfold sealedCols. simpl in *. split.
    - intros [?|([Hu0|Hu1] & Hlt & Hs & Ht)]; [by left; left; left| |];
        (destruct (decide (v = y)) as [->|Hne];
          [|left; left; right; split; [auto|split; [lia|done]]]).
      + left. right. subst u. done.
      + right. subst u. done.
    - intros [[[?|(Hc & Hlt & Hs & Ht)]|(E & Hs & Ht)]|(E & Hs & Ht)].
      + by left.
      + right. split; [done|]. split; [lia|done].
      + right. injection E as -> ->. split; [by left|]. split; [lia|done].
      + right. injection E as -> ->. split; [by right|]. split; [lia|done]. }
  exists g2. split; [done|]. split; [done|]. split.
  - intros p Hp Hb Hs Ht. apply (HI2 p Hp). unfold sealedRows, sealedCols.
    destruct Hp as [Hx Hy]. destruct Hb as [?|[?|[?|?]]].
    + right. repeat split; auto; lia.
    + right. repeat split; auto; lia.
    + left. repeat split; auto; lia.
    + left. repeat split; auto; lia.
  - intros p Hp Hc. apply (HI2 p Hp). unfold sealedRows, sealedCols, onBorder in *.
    intros [(? & _ & ? & ?)|(? & _ & ? & ?)]; destruct Hc as [?|[?|Hn]]; try done;
      apply Hn; tauto.
Qed.

Lemma sealBorder_spec_witness :
  exists g', sealBorder openSquare (QPt 0 1) (QPt 2 2) = Ok g' /\ shaped openSquare g' /\
    (forall p, inb openSquare p -> onBorder openSquare p ->
               p <> QPt 0 1 -> p <> QPt 2 2 -> cell g' p = false) /\
    (forall p, inb openSquare p ->
               p = QPt 0 1 \/ p = QPt 2 2 \/ ~ onBorder openSquare p ->
               cell g' p = cell openSquare p).
Proof.
  apply (sealBorder_spec openSquare (QPt 0 1) (QPt 2 2)).
  - repeat constructor.
  - unfold gwidth, size. simpl. lia.
Defined.

(** ** buildGrid *)

Lemma size_app {A} (l k : list A) : size (l ++ k) = size l + size k.
Proof. unfold size. rewrite length_app. lia. Qed.

Lemma size_resize {A} n (d : A) v : 0 <= n -> size (resize n d v) = n.
Proof.
  intros Hn. unfold size, resize. rewrite length_app, length_take, length_replicate. lia.
Qed.

Lemma seqZ_snoc_from lo n : 0 <= n -> seqZ lo (n + 1) = seqZ lo n ++ [lo + n].
Proof. intros Hn. rewrite seqZ_app by lia. by f_equal. Qed.

Lemma isWhite_bright maze x y :
  0 <= x < width maze -> 0 <= y < height maze ->
  isWhite maze x y = bright maze (x, y).
Proof.
  intros Hx Hy. unfold isWhite, bright. simpl.
  destruct (Z.ltb_spec x 0); [lia|]. destruct (Z.ltb_spec y 0); [lia|].
  destruct (Z.geb_spec x (width maze)); [lia|].
  destruct (Z.geb_spec y (height maze)); [lia|]. done.
Qed.

(** The inner counting loop over one row of pixels. *)
Lemma countRow_ok maze x0 x1 y (cnt : Z * Z) :
  0 <= x0 <= x1 -> x1 <= width maze -> 0 <= y < height maze ->
  forZ x0 x1 (fun x '(whiteCount, total) =>
      let total := total + 1 in
      Ok (if isWhite maze x y then (whiteCount + 1, total) else (whiteCount, total)))
    cnt
  = Ok (fst cnt + size (List.filter (bright maze) (map (fun x => (x, y)) (seqZ x0 (x1 - x0)))),
        snd cnt + size (map (fun x => (x, y)) (seqZ x0 (x1 - x0)))).
Proof.
  intros Hx Hx1 Hy.
  lazymatch goal with
  | |- forZ _ _ ?body _ = _ =>
      destruct (forZ_inv
        (fun x c => c =
           (fst cnt + size (List.filter (bright maze)
                             (map (fun x => (x, y)) (seqZ x0 (x - x0)))),
            snd cnt + size (map (fun x => (x, y)) (seqZ x0 (x - x0)))))
        body x0 x1 cnt) as (c & -> & ->); [lia| | |done]
  end.
  - rewrite Z.sub_diag. simpl. unfold size; simpl. destruct cnt; simpl. f_equal; lia.
  - intros x [w t] Hxx [= -> ->]. eexists. split; [reflexivity|].
    replace (x + 1 - x0) with (x - x0 + 1) by lia.
    rewrite seqZ_snoc_from by lia. rewrite map_app. cbn [map].
    rewrite filter_snoc, !size_app.
    replace (x0 + (x - x0)) with x by lia.
    rewrite isWhite_bright by lia.
    destruct (bright maze (x, y)); rewrite ?size_app; unfold size; simpl; f_equal; lia.
Qed.

Lemma countCell_ok maze x0 x1 y0 y1 :
  0 <= x0 <= x1 -> x1 <= width maze -> 0 <= y0 <= y1 -> y1 <= height maze ->
  countCell maze x0 x1 y0 y1
  = Ok (size (List.filter (bright maze) (rectPixels x0 x1 y0 y1)),
        size (rectPixels x0 x1 y0 y1)).
Proof.
  intros Hx Hx1 Hy Hy1. unfold countCell.
  lazymatch goal with
  | |- forZ _ _ ?body _ = _ =>
      destruct (forZ_inv
        (fun y c => c = (size (List.filter (bright maze) (rectPixels x0 x1 y0 y)),
                         size (rectPixels x0 x1 y0 y)))
        body y0 y1 (0, 0)) as (c & -> & ->); [lia| | |done]
  end.
  - unfold rectPixels. by rewrite Z.sub_diag.
  - intros y c Hyy ->. rewrite countRow_ok by lia. eexists. split; [reflexivity|].
    unfold rectPixels. replace (y + 1 - y0) with (y - y0 + 1) by lia.
    rewrite seqZ_snoc_from by lia. rewrite flat_map_app, List.filter_app, !size_app.
    replace (y0 + (y - y0)) with y by lia. simpl. by rewrite !app_nil_r.
Qed.

Lemma at_middle {A} (l1 l2 : list A) a i :
  size l1 = i -> at_ (l1 ++ a :: l2) i = Ok a.
Proof.
  intros Hi. unfold at_, size in *. destruct (Z.ltb_spec i 0); [lia|].
  rewrite (list_lookup_middle l1 l2 a) by lia. done.
Qed.

Lemma set_at_middle {A} (l1 l2 : list A) a b i :
  size l1 = i -> set_at (l1 ++ a :: l2) i b = Ok (l1 ++ b :: l2).
Proof.
  intros Hi. unfold size in Hi. rewrite set_at_ok.
  - f_equal. rewrite insert_app_r_alt by lia.
    by replace (Z.to_nat i - length l1)%nat with O by lia.
  - unfold size. rewrite length_app. simpl. lia.
Qed.

Lemma set2_middle (l1 l2 : grid) row y x b :
  size l1 = y -> 0 <= x < size row ->
  set2 (l1 ++ row :: l2) y x b = Ok (l1 ++ <[Z.to_nat x := b]> row :: l2).
Proof.
  intros Hy Hx. unfold set2. rewrite at_middle by done. cbn [bind].
  rewrite set_at_ok by done. cbn [bind]. by apply set_at_middle.
Qed.

(** Overwriting position [i] of a partly written vector. *)
Lemma overwrite_step {A} (final init : list A) (i : nat) v :
  (i < length init)%nat -> final !! i = Some v ->
  <[i := v]> (take i final ++ drop i init) = take (S i) final ++ drop (S i) init.
Proof.
  intros Hi Hv. pose proof (lookup_lt_Some _ _ _ Hv) as Hf.
  destruct (lookup_lt_is_Some_2 init i Hi) as [c Hc].
  rewrite insert_app_r_alt by (rewrite length_take; lia).
  rewrite length_take. replace (i - i `min` length final)%nat with O by lia.
  rewrite (drop_S _ _ _ Hc). simpl. rewrite (take_S_r _ _ _ Hv).
  by rewrite <- app_assoc.
Qed.

Lemma finalRow_lookup maze cs gw gy gx :
  0 <= gx < gw ->
  finalRow maze cs gw gy !! Z.to_nat gx = Some (cellFree maze cs gx gy).
Proof.
  intros Hx. unfold finalRow. rewrite list_lookup_fmap.
  rewrite lookup_seqZ_lt by lia. simpl. do 2 f_equal. lia.
Qed.

Lemma size_finalRow maze cs gw gy : 0 <= gw -> size (finalRow maze cs gw gy) = gw.
Proof. intros. unfold size, finalRow. rewrite length_map, length_seqZ. lia. Qed.

Lemma finalGrid_lookup maze cs gw gh gy :
  0 <= gy < gh ->
  finalGrid maze cs gw gh !! Z.to_nat gy = Some (finalRow maze cs gw gy).
Proof.
  intros Hy. unfold finalGrid. rewrite list_lookup_fmap.
  rewrite lookup_seqZ_lt by lia. simpl. do 2 f_equal. lia.
Qed.

(** The loop over [gx] writes the row [gy]. *)
Lemma buildRow_ok maze cs gw gy (l1 l2 : grid) rowinit :
  1 <= cs -> 0 <= gw -> cs * (gw - 1) < width maze ->
  0 <= gy -> gy * cs < height maze ->
  size l1 = gy -> size rowinit = gw ->
  forZ 0 gw (fun gx gr =>
      let x0 := gx * cs in
      let y0 := gy * cs in
      let x1 := Z.min (x0 + cs) (width maze) in
      let y1 := Z.min (y0 + cs) (height maze) in
      cnt <~ countCell maze x0 x1 y0 y1 ;;
      set2 gr gy gx (mostlyWhite (fst cnt) (snd cnt))) (l1 ++ rowinit :: l2)
  = Ok (l1 ++ finalRow maze cs gw gy :: l2).
Proof.
  intros Hcs Hgw Hw Hgy Hh Hl1 Hri.
  lazymatch goal with
  | |- forZ _ _ ?body ?init = _ =>
      destruct (forZ_inv
        (fun gx gr => gr = l1 ++ (take (Z.to_nat gx) (finalRow maze cs gw gy) ++
                                  drop (Z.to_nat gx) rowinit) :: l2)
        body 0 gw init) as (gr & -> & ->); [lia|done| |]
  end.
  - intros gx gr Hx ->. cbv zeta.
    rewrite countCell_ok by nia. cbn [bind fst snd].
    rewrite set2_middle; [|done|].
    2:{ rewrite size_app. unfold size. rewrite length_take, length_drop.
        pose proof (size_finalRow maze cs gw gy Hgw). unfold size in *. lia. }
    eexists. split; [reflexivity|]. f_equal. f_equal.
    replace (Z.to_nat (gx + 1)) with (S (Z.to_nat gx)) by lia.
    apply overwrite_step; [unfold size in Hri; lia|].
    by apply finalRow_lookup.
  - f_equal. f_equal. rewrite take_ge, drop_ge; [by rewrite app_nil_r| |].
    + unfold size in Hri. lia.
    + pose proof (size_finalRow maze cs gw gy Hgw). unfold size in *. lia.
Qed.

Lemma ceil_quot w cs :
  0 <= w -> 1 <= cs ->
  0 <= Z.quot (w + cs - 1) cs /\
  cs * (Z.quot (w + cs - 1) cs - 1) < w <= cs * Z.quot (w + cs - 1) cs.
Proof.
  intros Hw Hcs. rewrite Z.quot_div_nonneg by lia.
  pose proof (Z.div_mod (w + cs - 1) cs ltac:(lia)).
  pose proof (Z.mod_pos_bound (w + cs - 1) cs ltac:(lia)).
  split; [apply Z.div_pos; lia|]. lia.
Qed.

Lemma buildGrid_final maze cs grid0 :
  0 <= width maze -> 0 <= height maze -> 1 <= cs ->
  buildGrid maze cs grid0
  = Ok (finalGrid maze cs (Z.quot (width maze + cs - 1) cs)
                  (Z.quot (height maze + cs - 1) cs)).
Proof.
  intros Hw Hh Hcs. unfold buildGrid, int_div.
  destruct (Z.eqb_spec cs 0); [lia|]. cbn [bind].
  destruct (ceil_quot (width maze) cs Hw Hcs) as [Hgw0 Hgw].
  destruct (ceil_quot (height maze) cs Hh Hcs) as [Hgh0 Hgh].
  set (gw := Z.quot (width maze + cs - 1) cs) in *.
  set (gh := Z.quot (height maze + cs - 1) cs) in *.
  set (init := resize gh [] grid0).
  assert (Hinit : size init = gh) by (by apply size_resize).
  assert (Hfin : size (finalGrid maze cs gw gh) = gh).
  { unfold size, finalGrid. rewrite length_map, length_seqZ. lia. }
  lazymatch goal with
  | |- forZ _ _ ?body _ = _ =>
      destruct (forZ_inv
        (fun gy gr => gr = take (Z.to_nat gy) (finalGrid maze cs gw gh) ++
                           drop (Z.to_nat gy) init)
        body 0 gh init) as (gr & -> & ->); [lia|done| |]
  end.
  - intros gy gr Hy ->.
    destruct (lookup_lt_is_Some_2 init (Z.to_nat gy)) as [row Hrow];
      [unfold size in Hinit; lia|].
    rewrite (drop_S _ _ _ Hrow).
    assert (Hl1 : size (take (Z.to_nat gy) (finalGrid maze cs gw gh)) = gy).
    { unfold size in *. rewrite length_take. lia. }
    rewrite at_middle by done. cbn [bind].
    rewrite (set_at_middle _ _ _ (resize gw false row)) by done. cbn [bind].
    rewrite (buildRow_ok maze cs gw gy) by (done || nia || by apply size_resize).
    eexists. split; [reflexivity|].
    replace (Z.to_nat (gy + 1)) with (S (Z.to_nat gy)) by lia.
    rewrite (take_S_r _ _ _ (finalGrid_lookup maze cs gw gh gy Hy)).
    by rewrite <- app_assoc.
  - f_equal. rewrite take_ge, drop_ge; [by rewrite app_nil_r| |]; unfold size in *; lia.
Qed.

Lemma size_rectPixels x0 x1 y0 y1 :
  x0 <= x1 -> y0 <= y1 -> size (rectPixels x0 x1 y0 y1) = (x1 - x0) * (y1 - y0).
Proof.
  intros Hx Hy. unfold rectPixels.
  replace (y1 - y0) with (Z.of_nat (Z.to_nat (y1 - y0))) by lia.
  induction (Z.to_nat (y1 - y0)) as [|n IH].
  - unfold size; simpl. lia.
  - rewrite seqZ_S, flat_map_app, size_app, IH. simpl. rewrite app_nil_r.
    unfold size. rewrite length_map, length_seqZ. lia.
Qed.

Lemma forallFrom_spec n f :
  forall lo, forallFrom n lo f = true ->
  forall z, lo <= z < lo + Z.of_nat n -> f z = true.
Proof.
  induction n as [|n IH]; intros lo H z Hz; [lia|].
  simpl in H. apply andb_prop in H as [H0 H1].
  destruct (decide (z = lo)) as [->|Hne]; [done|].
  apply (IH (lo + 1) H1). lia.
Qed.

Lemma ratio_exact_1024 : forallFrom 1025 0 ratioExactFor = true.
Proof. vm_compute. reflexivity. Qed.

(** For cells of at most 1024 pixels, the [double] test [ratio > 0.7] is the
    exact comparison of [whiteCount / total] with 7/10. *)
Lemma mostlyWhite_exact w t :
  0 <= w <= t -> t <= 1024 -> mostlyWhite w t = (7 * t <? 10 * w).
Proof.
  intros Hw Ht. apply Bool.eqb_prop.
  pose proof (forallFrom_spec _ _ _ ratio_exact_1024 t) as H.
  unfold ratioExactFor in H.
  apply (forallFrom_spec _ _ _ (H ltac:(lia))). lia.
Qed.

(** C6 (as the code has it). For an image and a cell size of at least 1,
    [buildGrid] returns, whatever [grid] held before, a grid of
    ceil(height / cellSize) rows of ceil(width / cellSize) cells. The cell
    [(gx, gy)] is classified on the pixels of its square clipped to the image
    (at least one pixel): with [white] the number of those whose luminance,
    computed in [double] and truncated to [int], exceeds 230, and [total] the
    number of all of them, the cell is free iff the [double] quotient
    [white / total] exceeds the [double] 0.7; for a cell of at most 1024
    pixels that is exactly [white / total > 7/10]. *)
Theorem buildGrid_spec (maze : QImage) (cellSize : Z) (grid0 : grid) :
  0 <= width maze -> 0 <= height maze -> 1 <= cellSize ->
  exists gw gh g,
    cellSize * (gw - 1) < width maze <= cellSize * gw /\
    cellSize * (gh - 1) < height maze <= cellSize * gh /\
    buildGrid maze cellSize grid0 = Ok g /\
    size g = gh /\ Forall (fun row => size row = gw) g /\
    forall gx gy, 0 <= gx < gw -> 0 <= gy < gh ->
      let white := size (whitePixels maze cellSize gx gy) in
      let total := size (cellPixels maze cellSize gx gy) in
      0 <= white <= total /\ 0 < total /\
      cell g (QPt gx gy) = mostlyWhite white total /\
      (total <= 1024 -> cell g (QPt gx gy) = (7 * total <? 10 * white)).
Proof.
  intros Hw Hh Hcs.
  destruct (ceil_quot (width maze) cellSize Hw Hcs) as [Hgw0 Hgw].
  destruct (ceil_quot (height maze) cellSize Hh Hcs) as [Hgh0 Hgh].
  exists (Z.quot (width maze + cellSize - 1) cellSize),
         (Z.quot (height maze + cellSize - 1) cellSize).
  set (gw := Z.quot (width maze + cellSize - 1) cellSize) in *.
  set (gh := Z.quot (height maze + cellSize - 1) cellSize) in *.
  exists (finalGrid maze cellSize gw gh).
  split; [done|]. split; [done|]. split; [by apply buildGrid_final|].
  split; [|split].
  - unfold size, finalGrid. rewrite length_map, length_seqZ. lia.
  - unfold finalGrid. apply Forall_forall. intros row Hrow.
    apply list_elem_of_fmap in Hrow as (gy & -> & _). by apply size_finalRow.
  - intros gx gy Hx Hy white total.
    assert (Ht : total = (Z.min (gx * cellSize + cellSize) (width maze) - gx * cellSize)
                         * (Z.min (gy * cellSize + cellSize) (height maze) - gy * cellSize)).
    { unfold total, cellPixels. apply size_rectPixels; nia. }
    assert (Hwt : 0 <= white <= total).
    { unfold white, total, whitePixels, size.
      pose proof (List.filter_length_le (bright maze) (cellPixels maze cellSize gx gy)).
      lia. }
    assert (Hc : cell (finalGrid maze cellSize gw gh) (QPt gx gy) = mostlyWhite white total).
    { apply (cell_lookup _ _ (finalRow maze cellSize gw gy)); simpl; [lia|lia| |].
      - by apply finalGrid_lookup.
      - by apply finalRow_lookup. }
    assert (Hpos : 0 < total).
    { assert (gx * cellSize < width maze) by nia.
      assert (gy * cellSize < height maze) by nia.
      rewrite Ht. apply Z.mul_pos_pos; lia. }
    split; [done|]. split; [done|]. split; [done|].
    intros Hsmall. rewrite Hc. by apply mostlyWhite_exact.
Qed.

Lemma buildGrid_spec_witness :
  exists gw gh g,
    3 * (gw - 1) < width palePixel <= 3 * gw /\
    3 * (gh - 1) < height palePixel <= 3 * gh /\
    buildGrid palePixel 3 [] = Ok g /\
    size g = gh /\ Forall (fun row => size row = gw) g /\
    forall gx gy, 0 <= gx < gw -> 0 <= gy < gh ->
      let white := size (whitePixels palePixel 3 gx gy) in
      let total := size (cellPixels palePixel 3 gx gy) in
      0 <= white <= total /\ 0 < total /\
      cell g (QPt gx gy) = mostlyWhite white total /\
      (total <= 1024 -> cell g (QPt gx gy) = (7 * total <? 10 * white)).
Proof. apply (buildGrid_spec palePixel 3 []); simpl; lia. Defined.

(** The claim C6 as the text has it. The pixel (234, 230, 230) has luminance
    230.8504, which exceeds 230: the one cell of [palePixel] is free by the
    text, and blocked by [buildGrid], which compares the truncated 230. *)
Lemma buildGrid_not_exact_luminance :
  ~ (forall maze cellSize g gx gy,
       1 <= cellSize -> buildGrid maze cellSize [] = Ok g ->
       0 <= gx < gwidth g -> 0 <= gy < gheight g ->
       cell g (QPt gx gy) = exactFree maze cellSize gx gy).
Proof.
  intros H. specialize (H palePixel 1 [[false]] 0 0).
  assert (E : cell [[false]] (QPt 0 0) = exactFree palePixel 1 0 0).
  { apply H; [lia|reflexivity|unfold gwidth, size; simpl; lia
             |unfold gheight, size; simpl; lia]. }
  vm_compute in E. discriminate E.
Qed.

(** Rounding is visible in the classification: the pixel (214, 241, 182) has
    the exact luminance 231, its [double] luminance is just below and is
    truncated to 230. *)
Lemma luminance_rounded_down :
  (exactLuminance 0xFFD6F1B6 == 231)%Q /\ luminance 0xFFD6F1B6 = 230.
Proof. split; reflexivity. Qed.

(** ** Cell -> normalized point *)

Lemma qBound_range lo v hi : (lo <= hi)%Q -> (lo <= qBound lo v hi <= hi)%Q.
Proof.
  intros H. unfold qBound. split; [apply Q.le_max_l|].
  apply Q.max_lub; [done|apply Q.le_min_l].
Qed.

Lemma qBound_compat lo v hi hi' : (hi == hi')%Q -> (qBound lo v hi == qBound lo v hi')%Q.
Proof. intros E. unfold qBound. by rewrite E. Qed.

Lemma normalized_component (dim : Z) (v : Q) :
  3 <= dim ->
  let n := (qBound 0 v (inject_Z dim - 1 - 1) / (inject_Z dim - 1 - 1))%Q in
  (n == qBound 0 v (inject_Z dim - 2) / (inject_Z dim - 2))%Q /\ (0 <= n <= 1)%Q.
Proof.
  intros Hd n. subst n.
  assert (E : (inject_Z dim - 1 - 1 == inject_Z dim - 2)%Q) by ring.
  assert (Hpos : (0 < inject_Z dim - 2)%Q).
  { assert (inject_Z 3 <= inject_Z dim)%Q by (by rewrite <- Zle_Qle).
    change (inject_Z 3) with 3%Q in *. lra. }
  split.
  - rewrite (qBound_compat 0 v _ _ E). by rewrite E.
  - rewrite (qBound_compat 0 v _ _ E), E.
    destruct (qBound_range 0 v (inject_Z dim - 2)) as [H0 H1]; [lra|].
    split.
    + apply Qle_shift_div_l; [done|]. lra.
    + apply Qle_shift_div_r; [done|]. lra.
Qed.

(** The mapper as it is written. For a cropped image of width and height at
    least 3, it takes the cell centre
    ((col + 0.5) cellSize, (row + 0.5) cellSize), clamps each component into
    [0, dimension - 2] and divides it by dimension - 2; both components of the
    point lie in [0, 1]. *)
Lemma toNormalized_spec (mazeWidth mazeHeight cellSize : Z) (c : QPoint) :
  3 <= mazeWidth -> 3 <= mazeHeight ->
  let n := toNormalized mazeWidth mazeHeight cellSize c in
  (fst n == qBound 0 ((inject_Z (px c) + 0.5) * inject_Z cellSize)
                   (inject_Z mazeWidth - 2) / (inject_Z mazeWidth - 2))%Q /\
  (snd n == qBound 0 ((inject_Z (py c) + 0.5) * inject_Z cellSize)
                   (inject_Z mazeHeight - 2) / (inject_Z mazeHeight - 2))%Q /\
  (0 <= fst n <= 1)%Q /\ (0 <= snd n <= 1)%Q.
Proof.
  intros Hw Hh n. subst n. unfold toNormalized. cbn [fst snd].
  destruct (normalized_component mazeWidth
              ((inject_Z (px c) + 0.5) * inject_Z cellSize)%Q Hw) as [Ex Hx].
  destruct (normalized_component mazeHeight
              ((inject_Z (py c) + 0.5) * inject_Z cellSize)%Q Hh) as [Ey Hy].
  auto.
Qed.

Lemma toNormalized_spec_witness :
  let n := toNormalized 10 10 3 (QPt 0 0) in
  (fst n == qBound 0 ((inject_Z 0 + 0.5) * inject_Z 3) (inject_Z 10 - 2)
            / (inject_Z 10 - 2))%Q /\
  (snd n == qBound 0 ((inject_Z 0 + 0.5) * inject_Z 3) (inject_Z 10 - 2)
            / (inject_Z 10 - 2))%Q /\
  (0 <= fst n <= 1)%Q /\ (0 <= snd n <= 1)%Q.
Proof. apply (toNormalized_spec 10 10 3 (QPt 0 0)); lia. Defined.

(** The divisor is not dimension - 1: in a 10 pixel wide image with cells of
    3 pixels, the cell (0, 0) is mapped to x = 1.5 / 8, not to 1.5 / 9. *)
Lemma toNormalized_not_dimension_minus_1 :
  ~ (forall mazeWidth mazeHeight cellSize c,
       3 <= mazeWidth -> 3 <= mazeHeight ->
       (fst (toNormalized mazeWidth mazeHeight cellSize c)
        == claimedNormalizedX mazeWidth cellSize c)%Q).
Proof.
  intros H. specialize (H 10 10 3 (QPt 0 0) ltac:(lia) ltac:(lia)).
  vm_compute in H. discriminate H.
Qed.

(** C7 (the code at the failing input). In a cropped image 10 pixels wide,
    with cells of 3 pixels, the centre of the cell (0, 0) is x = 1.5. The
    mapper divides it by width - 2 = 8 and not by width - 1 = 9; the overlay
    multiplies by width - 1 = 9 and draws the point at 1.6875. Dividing by
    width - 1, as the text says, would give back 1.5. *)
Theorem toNormalized_divisor_off_by_one :
  (fst (toNormalized 10 10 3 (QPt 0 0)) == 1.5 / 8)%Q /\
  (claimedNormalizedX 10 3 (QPt 0 0) == 1.5 / 9)%Q /\
  (mapX 0 10 (fst (toNormalized 10 10 3 (QPt 0 0))) == 1.6875)%Q /\
  (mapX 0 10 (claimedNormalizedX 10 3 (QPt 0 0)) == 1.5)%Q.
Proof. repeat split; reflexivity. Qed.

(** ** pathToMoves *)

Lemma stepDirs_snoc l a b :
  stepDirs (l ++ [a; b]) = stepDirs (l ++ [a]) ++ stepDir a b.
Proof.
  induction l as [|x l IH]; [simpl; by rewrite app_nil_r|].
  destruct l as [|y l].
  - simpl. by rewrite !app_nil_r.
  - change (stepDirs ((x :: y :: l) ++ [a; b]))
      with (stepDir x y ++ stepDirs ((y :: l) ++ [a; b])).
    change (stepDirs ((x :: y :: l) ++ [a]))
      with (stepDir x y ++ stepDirs ((y :: l) ++ [a])).
    by rewrite IH, app_assoc.
Qed.

Lemma expand_snoc ms m :
  expand (ms ++ [m]) = expand ms ++ replicate (Z.to_nat (steps m)) (dir m).
Proof. unfold expand. rewrite flat_map_app. simpl. by rewrite app_nil_r. Qed.

Lemma noRepeat_snoc l a b :
  noRepeat (l ++ [a]) -> a <> b -> noRepeat (l ++ [a; b]).
Proof.
  induction l as [|x l IH]; intros H Hab; [done|].
  destruct l as [|y l]; [simpl in *; tauto|].
  destruct H as [Hxy H]. split; [done|]. by apply IH.
Qed.

Lemma take_snoc_prev {A} (l : list A) (i : nat) p q :
  l !! i = Some p -> l !! S i = Some q ->
  take (S (S i)) l = take i l ++ [p; q].
Proof.
  intros Hp Hq. rewrite (take_S_r _ _ _ Hq), (take_S_r _ _ _ Hp).
  by rewrite <- app_assoc.
Qed.

Lemma moveStep_ok path i st :
  1 <= i < size path -> runsInv path i st ->
  exists st', moveStep path i st = Ok st' /\ runsInv path (i + 1) st'.
Proof.
  intros Hi (Hprev & (Hexp & Hpos & Hrep) & Hcs & Hzero).
  destruct (at_ok path i) as (p & Ep & Hp); [lia|].
  unfold moveStep. rewrite Ep. cbn [bind].
  assert (Htake : take (Z.to_nat (i + 1)) path
                  = take (Z.to_nat (i - 1)) path ++ [prev st; p]).
  { replace (Z.to_nat (i + 1)) with (S (S (Z.to_nat (i - 1)))) by lia.
    apply take_snoc_prev; [done|]. by replace (S (Z.to_nat (i - 1))) with (Z.to_nat i) by lia. }
  assert (Htake' : take (Z.to_nat i) path = take (Z.to_nat (i - 1)) path ++ [prev st]).
  { replace (Z.to_nat i) with (S (Z.to_nat (i - 1))) by lia. by apply take_S_r. }
  assert (Hdirs : stepDirs (take (Z.to_nat (i + 1)) path)
                  = stepDirs (take (Z.to_nat i) path) ++ stepDir (prev st) p).
  { by rewrite Htake, Htake', stepDirs_snoc. }
  unfold stepDir in Hdirs. cbv zeta in Hdirs.
  assert (Hprev' : path !! Z.to_nat (i + 1 - 1) = Some p).
  { by replace (i + 1 - 1) with i by lia. }
  set (d := dirFromDelta (px p - px (prev st)) (py p - py (prev st))) in *.
  unfold runsInv, runLengthOf. rewrite Hdirs.
  destruct (String.eqb d "?") eqn:Eq.
  { eexists. split; [reflexivity|]. unfold allMoves in *. simpl.
    rewrite app_nil_r. done. }
  destruct (Z.eqb_spec (curSteps st) 0) as [E0|E0].
  { eexists. split; [reflexivity|]. unfold allMoves in *. simpl.
    rewrite E0 in *. simpl in Hexp. rewrite (Hzero eq_refl) in *. simpl in *.
    rewrite <- Hexp. split; [done|]. split; [|split; [lia|intros; lia]].
    split; [done|]. split; [|done]. repeat constructor. simpl. lia. }
  assert (Hgt : (curSteps st >? 0) = true) by (apply Z.gtb_lt; lia).
  unfold allMoves in *. rewrite Hgt in *.
  destruct (String.eqb_spec d (curDir st)) as [Ed|Ed].
  - eexists. split; [reflexivity|]. simpl.
    replace (curSteps st + 1 >? 0) with true by (symmetry; apply Z.gtb_lt; lia).
    rewrite expand_snoc in *. simpl in *.
    replace (Z.to_nat (curSteps st + 1)) with (S (Z.to_nat (curSteps st))) by lia.
    rewrite replicate_S_end, app_assoc, Hexp, Ed.
    rewrite map_app in *. simpl in *.
    apply Forall_app in Hpos as [Hpos1 Hpos2].
    repeat split; try done; try lia.
    apply Forall_app. split; [done|]. repeat constructor. simpl. lia.
  - eexists. split; [reflexivity|]. simpl.
    split; [done|]. split; [|split; [lia|intros; lia]]. split; [|split].
    + rewrite expand_snoc. simpl. by rewrite Hexp.
    + apply Forall_app. split; [done|]. repeat constructor. simpl. lia.
    + rewrite !map_app in *. simpl in *. rewrite <- app_assoc. simpl.
      apply noRepeat_snoc; [done|]. congruence.
Qed.

Lemma compressPath_ok path :
  1 <= size path ->
  exists ms, compressPath path = Ok ms /\ runLengthOf (stepDirs path) ms.
Proof.
  intros Hn. unfold compressPath.
  destruct (at_ok path 0) as (p0 & -> & Hp0); [lia|]. cbn [bind].
  destruct (forZ_inv (runsInv path) (moveStep path) 1 (size path) (Runs p0 "" 0 []))
    as (st & -> & (_ & Hrl & _)); [lia| | |].
  - split; [done|]. split; [|done].
    unfold allMoves. simpl. destruct path as [|a [|b l]]; repeat split; constructor.
  - intros i st Hi HI. by apply moveStep_ok.
  - cbn [bind]. eexists. split; [reflexivity|].
    unfold size in Hrl. rewrite Nat2Z.id, firstn_all in Hrl. exact Hrl.
Qed.

(** C8. For a path of at least two cells, the moves that [pathToMoves] writes
    are the run-length encoding of the directions of its steps: consecutive
    steps in one direction are one move with their number as step count, and
    a move ends where the direction changes. The path of Scenario C gives the
    two moves (E, 2), (S, 1), written [{"dir":"E","steps":2},{"dir":"S","steps":1}]. *)
Theorem pathToMoves_run_length :
  (forall path, 2 <= size path ->
     exists ms,
       compressPath path = Ok ms /\
       runLengthOf (stepDirs path) ms /\
       pathToMoves path = Ok ("[" ++ join "," (map moveText ms) ++ "]")%string) /\
  compressPath scenarioC = Ok [MkMove "E" 2; MkMove "S" 1] /\
  pathToMoves scenarioC
  = Ok ("[{" ++ quote ++ "dir" ++ quote ++ ":" ++ quote ++ "E" ++ quote ++ ","
             ++ quote ++ "steps" ++ quote ++ ":2},{"
             ++ quote ++ "dir" ++ quote ++ ":" ++ quote ++ "S" ++ quote ++ ","
             ++ quote ++ "steps" ++ quote ++ ":1}]")%string.
Proof.
  split; [|split; reflexivity].
  intros path Hn. destruct (compressPath_ok path ltac:(lia)) as (ms & E & Hrl).
  exists ms. split; [done|]. split; [done|].
  unfold pathToMoves. destruct (Z.ltb_spec (size path) 2); [lia|].
  rewrite E. reflexivity.
Qed.

Lemma pathToMoves_run_length_witness :
  exists ms,
    compressPath scenarioC = Ok ms /\
    runLengthOf (stepDirs scenarioC) ms /\
    pathToMoves scenarioC = Ok ("[" ++ join "," (map moveText ms) ++ "]")%string.
Proof. apply (proj1 pathToMoves_run_length scenarioC). vm_compute. discriminate. Defined.

Lemma moveText_head m :
  exists rest, moveText m = String "{" (String (ascii_of_nat 34) (String "d" rest)).
Proof. unfold moveText, quote. simpl. eauto. Qed.

(** C9. For a path of fewer than two cells, [pathToMoves] returns the text [{}],
    in which no move is written. *)
Theorem pathToMoves_short (path : list QPoint) :
  size path < 2 ->
  exists out, pathToMoves path = Ok out /\ out = "{}"%string /\
              forall m, ~ occursIn (moveText m) out.
Proof.
  intros Hn. exists "{}"%string. split; [|split; [done|]].
  - unfold pathToMoves. by destruct (Z.ltb_spec (size path) 2); [|lia].
  - intros m (a & b & E). destruct (moveText_head m) as (rest & Em).
    rewrite Em in E. destruct a as [|c1 [|c2 [|c3 a]]]; simpl in E; discriminate E.
Qed.

Lemma pathToMoves_short_witness :
  exists out, pathToMoves [QPt 4 2] = Ok out /\ out = "{}"%string /\
              forall m, ~ occursIn (moveText m) out.
Proof. apply (pathToMoves_short [QPt 4 2]). vm_compute. reflexivity. Defined.

(** ** Further facts: findOpenings *)

Lemma last_in_list {A} (l : list A) d : l <> [] -> In (List.last l d) l.
Proof.
  induction l as [|x [|y l] IH]; intros Hne; [done|by left|].
  right. apply IH. done.
Qed.

(** The result of [findOpenings] in terms of the candidate list. *)
Lemma findOpenings_candidates (g : grid) :
  rect g -> 1 <= gwidth g ->
  findOpenings g =
  Ok (match List.filter (cell g) (scanOrder (gwidth g) (gheight g)) with
      | a :: (_ :: _) as l => Some (a, List.last l a)
      | _ => None
      end).
Proof.
  intros Hrect Hw. unfold findOpenings.
  destruct g as [|row0 g'] eqn:Eg; [simpl in Hw; lia|]. rewrite <- Eg in *.
  assert (Hh : (size g =? 0) = false).
  { apply Z.eqb_neq. rewrite Eg. unfold size. simpl. lia. }
  rewrite Hh. replace (at_ g 0) with (Ok row0) by (by rewrite Eg). cbn [bind].
  replace (size row0) with (gwidth g) by (by rewrite Eg).
  change (size g) with (gheight g). rewrite collectOpenings_scan by done. cbn [bind].
  destruct (List.filter _ _) as [|a [|b l]]; try reflexivity.
  unfold size. simpl length.
  destruct (Z.ltb_spec (Z.of_nat (S (S (length l)))) 2); [lia|done].
Qed.

(** A grid whose rows are empty cannot be scanned: the left-column scan reads
    [grid[0][0]]. *)
Lemma findOpenings_no_column (g : grid) :
  rect g -> 1 <= gheight g -> gwidth g = 0 -> findOpenings g = Err OutOfRange.
Proof.
  intros Hrect Hh Hw. unfold findOpenings.
  destruct g as [|row0 g'] eqn:Eg; [unfold gheight, size in Hh; simpl in Hh; lia|].
  rewrite <- Eg in *.
  assert (E0 : (size g =? 0) = false) by (apply Z.eqb_neq; unfold gheight in Hh; lia).
  rewrite E0. replace (at_ g 0) with (Ok row0) by (by rewrite Eg). cbn [bind].
  replace (size row0) with (gwidth g) by (by rewrite Eg). rewrite Hw.
  change (size g) with (gheight g). unfold collectOpenings.
  change (forZ 0 0 _ _) with (@Ok (list QPoint) []) at 1. cbn [bind].
  unfold forZ. replace (Z.to_nat (gheight g - 0)) with (S (Z.to_nat (gheight g - 1))) by lia.
  cbn [for_]. assert (Er : row0 = []).
  { rewrite Eg in Hw. simpl in Hw. unfold size in Hw. by destruct row0. }
  unfold at2 at 1. replace (at_ g 0) with (Ok row0) by (by rewrite Eg). rewrite Er.
  reflexivity.
Qed.

(** X1. When [findOpenings] succeeds on a rectangular grid, [start] and [goal]
    are cells of the grid, lie on its border and are free. *)
Theorem findOpenings_free_border (g : grid) (s t : QPoint) :
  rect g -> findOpenings g = Ok (Some (s, t)) ->
  (inb g s /\ onBorder g s /\ cell g s = true) /\
  (inb g t /\ onBorder g t /\ cell g t = true).
Proof.
  intros Hrect Hf.
  assert (Hh : 1 <= gheight g).
  { destruct g; [discriminate Hf|]. unfold gheight, size. simpl. lia. }
  assert (Hw : 1 <= gwidth g).
  { destruct (Z_lt_le_dec (gwidth g) 1) as [Hlt|]; [|done].
    assert (gwidth g = 0).
    { destruct g; [done|]. simpl in *. unfold size in *. lia. }
    rewrite findOpenings_no_column in Hf by done. discriminate Hf. }
  rewrite findOpenings_candidates in Hf by done.
  assert (Hin : forall r, In r (List.filter (cell g) (scanOrder (gwidth g) (gheight g))) ->
                          inb g r /\ onBorder g r /\ cell g r = true).
  { intros r Hr. apply filter_In in Hr as [Hr Hc].
    apply in_scanOrder in Hr as [Hb Hbd]; [|done..]. done. }
  destruct (List.filter _ _) as [|a [|b l]]; try discriminate Hf.
  injection Hf as <- <-. split.
  - apply Hin. by left.
  - apply Hin. exact (last_in_list (a :: b :: l) a ltac:(done)).
Qed.

Lemma findOpenings_free_border_witness :
  (inb twoOpenings (QPt 1 2) /\ onBorder twoOpenings (QPt 1 2)
   /\ cell twoOpenings (QPt 1 2) = true) /\
  (inb twoOpenings (QPt 2 0) /\ onBorder twoOpenings (QPt 2 0)
   /\ cell twoOpenings (QPt 2 0) = true).
Proof.
  apply (findOpenings_free_border twoOpenings (QPt 1 2) (QPt 2 0)).
  - repeat constructor.
  - reflexivity.
Defined.

(** X2. On a rectangular grid with at least one column, two distinct free
    border cells are enough for [findOpenings] to succeed. *)
Theorem findOpenings_two_suffice (g : grid) (p q : QPoint) :
  rect g -> 1 <= gwidth g ->
  inb g p -> onBorder g p -> cell g p = true ->
  inb g q -> onBorder g q -> cell g q = true ->
  p <> q ->
  exists s t, findOpenings g = Ok (Some (s, t)).
Proof.
  intros Hrect Hw Hp Hpb Hpf Hq Hqb Hqf Hne.
  assert (Hh : 1 <= gheight g).
  { destruct g; [simpl in Hw; lia|]. unfold gheight, size. simpl. lia. }
  rewrite findOpenings_candidates by done.
  assert (Hin : forall r, inb g r -> onBorder g r -> cell g r = true ->
            In r (List.filter (cell g) (scanOrder (gwidth g) (gheight g)))).
  { intros r Hr Hrb Hrf. apply filter_In. split; [|done]. by apply in_scanOrder. }
  pose proof (Hin p Hp Hpb Hpf) as Hip. pose proof (Hin q Hq Hqb Hqf) as Hiq.
  destruct (List.filter _ _) as [|a [|b l]].
  - destruct Hip.
  - destruct Hip as [<-|[]], Hiq as [<-|[]]. done.
  - eauto.
Qed.

Lemma findOpenings_two_suffice_witness :
  exists s t, findOpenings twoOpenings = Ok (Some (s, t)).
Proof.
  apply (findOpenings_two_suffice twoOpenings (QPt 2 0) (QPt 1 2)).
  - repeat constructor.
  - unfold gwidth, size; simpl; lia.
  - in_grid.
  - unfold onBorder; simpl; lia.
  - reflexivity.
  - in_grid.
  - unfold onBorder, gheight, size; simpl; lia.
  - reflexivity.
  - discriminate.
Defined.

(** ** Further facts: pathToMoves *)

Lemma dirFromDelta_cases dx dy :
  let d := dirFromDelta dx dy in
  (d = "E"%string /\ dx = 1 /\ dy = 0) \/ (d = "W"%string /\ dx = -1 /\ dy = 0) \/
  (d = "S"%string /\ dx = 0 /\ dy = 1) \/ (d = "N"%string /\ dx = 0 /\ dy = -1) \/
  (d = "?"%string /\ Z.abs dx + Z.abs dy <> 1).
Proof.
  unfold dirFromDelta.
  destruct (Z.eqb_spec dx 1), (Z.eqb_spec dy 0), (Z.eqb_spec dx (-1)),
    (Z.eqb_spec dx 0), (Z.eqb_spec dy 1), (Z.eqb_spec dy (-1));
    simpl; subst; try lia; auto 10; right; right; right; right; split; auto; lia.
Qed.

(** A unit step has a direction, and that direction leads to its end. *)
Lemma stepDir_adjacent a b :
  adjacent a b -> exists d, stepDir a b = [d] /\ isDir d /\ moveBy a d = b.
Proof.
  intros Hadj. unfold adjacent in Hadj. unfold stepDir. cbv zeta.
  destruct (dirFromDelta_cases (px b - px a) (py b - py a))
    as [(E & Hx & Hy)|[(E & Hx & Hy)|[(E & Hx & Hy)|[(E & Hx & Hy)|(E & Hn)]]]];
    [..|lia]; rewrite E; simpl; eexists; (split; [reflexivity|]);
    (split; [unfold isDir; auto|]); unfold moveBy; simpl; destruct b as [bx by_];
    simpl in *; f_equal; lia.
Qed.

Lemma stepDir_isDir a b d : In d (stepDir a b) -> isDir d.
Proof.
  unfold stepDir. cbv zeta.
  destruct (dirFromDelta_cases (px b - px a) (py b - py a))
    as [(E & _)|[(E & _)|[(E & _)|[(E & _)|(E & _)]]]]; rewrite E; simpl;
    intros H; [destruct H as [<-|[]]; unfold isDir; auto ..|destruct H].
Qed.

Lemma stepDirs_isDir path : Forall isDir (stepDirs path).
Proof.
  induction path as [|a [|b l] IH]; [constructor..|].
  change (stepDirs (a :: b :: l)) with (stepDir a b ++ stepDirs (b :: l)).
  apply Forall_app. split; [|done]. apply Forall_forall. intros d Hd.
  apply list_elem_of_In in Hd. by apply (stepDir_isDir a b).
Qed.

Lemma follow_stepDirs a rest :
  fourConnected a rest ->
  follow a (stepDirs (a :: rest)) = rest /\
  length (stepDirs (a :: rest)) = length rest.
Proof.
  revert a. induction rest as [|b rest IH]; intros a Hc; [done|].
  destruct Hc as [Hadj Hc].
  change (stepDirs (a :: b :: rest)) with (stepDir a b ++ stepDirs (b :: rest)).
  destruct (stepDir_adjacent a b Hadj) as (d & -> & _ & Hm).
  destruct (IH b Hc) as [IH1 IH2]. cbn [app follow length]. rewrite Hm, IH1, IH2. done.
Qed.

Lemma length_expand ms :
  Forall (fun m => 1 <= steps m) ms -> Z.of_nat (length (expand ms)) = totalSteps ms.
Proof.
  induction 1 as [|m ms Hm Hms IH]; [done|].
  unfold expand in *. simpl. rewrite length_app, length_replicate.
  unfold totalSteps in *. simpl. lia.
Qed.

(** X3. The moves written for a four-connected path lead back to it: walked
    step by step from the first cell they visit exactly the remaining cells
    of the path, and their step counts add up to the number of cells minus
    one. *)
Theorem compressPath_round_trip (a : QPoint) (rest : list QPoint) :
  fourConnected a rest ->
  exists ms, compressPath (a :: rest) = Ok ms /\
             replay a ms = rest /\
             totalSteps ms = Z.of_nat (length rest).
Proof.
  intros Hc.
  destruct (compressPath_ok (a :: rest)) as (ms & E & Hexp & Hpos & _).
  { unfold size. simpl. lia. }
  destruct (follow_stepDirs a rest Hc) as [Hf Hl].
  exists ms. split; [done|]. split.
  - unfold replay. by rewrite Hexp.
  - rewrite <- (length_expand ms Hpos), Hexp, Hl. done.
Qed.

Lemma compressPath_round_trip_witness :
  exists ms, compressPath (QPt 0 0 :: [QPt 1 0; QPt 2 0; QPt 2 1]) = Ok ms /\
             replay (QPt 0 0) ms = [QPt 1 0; QPt 2 0; QPt 2 1] /\
             totalSteps ms = Z.of_nat (length [QPt 1 0; QPt 2 0; QPt 2 1]).
Proof.
  apply (compressPath_round_trip (QPt 0 0) [QPt 1 0; QPt 2 0; QPt 2 1]).
  simpl. unfold adjacent. simpl. repeat split; lia.
Defined.

(** X4. For every non-empty path, each move that is written has one of the
    four direction letters E, W, S, N (never the letter of a skipped step) and
    at least one step, and the step counts add up to the number of unit steps
    of the path. *)
Theorem compressPath_moves_valid (path : list QPoint) :
  1 <= size path ->
  exists ms, compressPath path = Ok ms /\
             Forall (fun m => isDir (dir m) /\ 1 <= steps m) ms /\
             totalSteps ms = Z.of_nat (length (stepDirs path)).
Proof.
  intros Hn. destruct (compressPath_ok path Hn) as (ms & E & Hexp & Hpos & _).
  exists ms. split; [done|]. split.
  - apply Forall_forall. intros m Hm. rewrite Forall_forall in Hpos.
    split; [|by apply Hpos].
    pose proof (stepDirs_isDir path) as Hd. rewrite <- Hexp in Hd.
    rewrite Forall_forall in Hd. apply Hd. apply list_elem_of_In.
    unfold expand. apply in_flat_map. exists m. split; [by apply list_elem_of_In|].
    apply list_elem_of_In, elem_of_replicate. split; [done|].
    specialize (Hpos m Hm). simpl in Hpos. lia.
  - by rewrite <- (length_expand ms Hpos), Hexp.
Qed.

Lemma compressPath_moves_valid_witness :
  exists ms, compressPath scenarioC = Ok ms /\
             Forall (fun m => isDir (dir m) /\ 1 <= steps m) ms /\
             totalSteps ms = Z.of_nat (length (stepDirs scenarioC)).
Proof. apply (compressPath_moves_valid scenarioC). vm_compute. discriminate. Defined.

(** X5. A path of two or more cells without any unit step (repeated cells,
    diagonal or longer jumps only) gives the text [[]], whereas a path of
    fewer than two cells gives [{}]: the two empty results are written
    differently. *)
Theorem pathToMoves_no_unit_step (path : list QPoint) :
  2 <= size path -> stepDirs path = [] ->
  pathToMoves path = Ok "[]"%string.
Proof.
  intros Hn Hd. destruct (compressPath_ok path ltac:(lia)) as (ms & E & Hexp & Hpos & _).
  rewrite Hd in Hexp. assert (ms = []) as ->.
  { destruct ms as [|m ms]; [done|]. apply Forall_cons in Hpos as [Hm _].
    unfold expand in Hexp. simpl in Hexp.
    replace (Z.to_nat (steps m)) with (S (Z.to_nat (steps m - 1))) in Hexp by lia.
    discriminate Hexp. }
  unfold pathToMoves. destruct (Z.ltb_spec (size path) 2); [lia|].
  rewrite E. reflexivity.
Qed.

Lemma pathToMoves_no_unit_step_witness :
  pathToMoves [QPt 0 0; QPt 1 1; QPt 1 1] = Ok "[]"%string.
Proof.
  apply (pathToMoves_no_unit_step [QPt 0 0; QPt 1 1; QPt 1 1]).
  - vm_compute. discriminate.
  - reflexivity.
Defined.

(** ** Further facts: bfsPath *)

(** The two outcomes of [bfsPath] inside the grid: the empty path when there
    is no route, and otherwise a shortest route. *)
Lemma bfsPath_cases (g : grid) (start goal : QPoint) :
  rect g -> inb g start -> inb g goal ->
  (BFS.bfsPath g start goal = Ok [] /\ forall rest, ~ connects g start goal rest) \/
  (exists path, BFS.bfsPath g start goal = Ok (start :: path) /\
                connects g start goal path /\
                forall rest, connects g start goal rest ->
                             (length path <= length rest)%nat).
Proof.
  intros Hrect Hstart Hgoal.
  destruct (bfsPath_run g start Hrect Hstart goal Hgoal) as (Q & d & par & HI & HQ & ->).
  pose proof (inv_size_d _ _ _ _ _ HI) as Hsd.
  pose proof (inv_vals _ _ _ _ _ HI _ _ (D_lookup g d goal Hsd Hgoal)) as Hv.
  destruct (Z.eqb_spec (getd d (cidx g goal)) (-1)) as [E|Hne].
  - left. split; [done|]. intros rest Hc.
    pose proof (final_dist g start Hstart goal Q d par rest HI HQ Hc). lia.
  - right. pose proof (seen_bound g start Q d par goal HI Hgoal) as Hb.
    destruct (walkBack_ok g start Q d par HI (Z.to_nat (getd d (cidx g goal))) goal []
                (S (Z.to_nat (gwidth g * gheight g))) Hgoal ltac:(lia) ltac:(lia))
      as (path & -> & Hp & Hlen).
    cbn [bind app]. rewrite rev_involutive.
    exists path. split; [done|]. split; [done|]. intros rest Hc.
    pose proof (final_dist g start Hstart goal Q d par rest HI HQ Hc). lia.
Qed.

Lemma route_app g s l1 x l2 :
  route g s (l1 ++ x :: l2) -> route g x l2.
Proof.
  revert s. induction l1 as [|y l1 IH]; intros s H.
  - by destruct H.
  - destruct H as [_ H]. by apply (IH y).
Qed.

Lemma last_app_cons {A} (l1 l2 : list A) x d :
  List.last (l1 ++ x :: l2) d = List.last l2 x.
Proof.
  revert d. induction l1 as [|y l1 IH]; intros d; [apply last_cons|].
  rewrite <- app_comm_cons, last_cons. apply IH.
Qed.

(** A shortest route visits no cell twice. *)
Lemma shortest_route_NoDup g t path :
  forall s,
    route g s path -> List.last path s = t ->
    (forall r, route g s r -> List.last r s = t -> (length path <= length r)%nat) ->
    NoDup (s :: path).
Proof.
  induction path as [|v rest IH]; intros s Hr Hl Hmin.
  - apply NoDup_singleton.
  - destruct Hr as [Hstep Hr]. rewrite last_cons in Hl.
    apply NoDup_cons. split.
    + intros Hin. apply list_elem_of_In, in_split in Hin as (l1 & l2 & E).
      assert (Hr2 : route g s l2).
      { apply (route_app g s l1 s l2). rewrite <- E. by split. }
      assert (Hl2 : List.last l2 s = t).
      { rewrite <- Hl, <- (last_cons rest v s), E. symmetry. apply last_app_cons. }
      specialize (Hmin l2 Hr2 Hl2).
      apply (f_equal length) in E. rewrite length_app in E. simpl in *. lia.
    + apply IH; [done|done|]. intros r Hrr Hlr.
      assert (length (v :: rest) <= length (v :: r))%nat; [|simpl in *; lia].
      apply (Hmin (v :: r)); [by split|]. by rewrite last_cons.
Qed.

(** X6. When the goal can be reached, the path that [bfsPath] returns is
    simple: no cell occurs twice in it. *)
Theorem bfsPath_simple (g : grid) (start goal : QPoint) (rest : list QPoint) :
  rect g -> inb g start -> connects g start goal rest ->
  exists path, BFS.bfsPath g start goal = Ok path /\ NoDup path.
Proof.
  intros Hrect Hstart Hc.
  pose proof (connects_inb g start goal rest Hstart Hc) as Hgoal.
  destruct (bfsPath_cases g start goal Hrect Hstart Hgoal)
    as [[_ Hno]|(path & E & [Hr Hl] & Hmin)]; [by destruct (Hno rest)|].
  exists (start :: path). split; [done|].
  apply (shortest_route_NoDup g goal path start Hr Hl).
  intros r Hrr Hlr. apply Hmin. by split.
Qed.

Lemma bfsPath_simple_witness :
  exists path, BFS.bfsPath sampleMaze (QPt 0 0) (QPt 3 2) = Ok path /\ NoDup path.
Proof.
  apply (bfsPath_simple sampleMaze (QPt 0 0) (QPt 3 2)
           [QPt 0 1; QPt 1 1; QPt 2 1; QPt 2 2; QPt 3 2]).
  - repeat constructor.
  - in_grid.
  - split; [|reflexivity]. simpl. repeat (split; [a_step|]). exact I.
Defined.

(** X7. With [start = goal] inside a rectangular grid, [bfsPath] returns the
    one-cell path, whether that cell is free or blocked. *)
Theorem bfsPath_start_is_goal (g : grid) (s : QPoint) :
  rect g -> inb g s -> BFS.bfsPath g s s = Ok [s].
Proof.
  intros Hrect Hs.
  destruct (bfsPath_cases g s s Hrect Hs Hs) as [[_ Hno]|(path & E & _ & Hmin)].
  - destruct (Hno []). by split.
  - specialize (Hmin [] ltac:(by split)). destruct path; [done|simpl in Hmin; lia].
Qed.

Lemma bfsPath_start_is_goal_witness :
  BFS.bfsPath walledRow (QPt 1 0) (QPt 1 0) = Ok [QPt 1 0].
Proof.
  apply (bfsPath_start_is_goal walledRow (QPt 1 0)).
  - repeat constructor.
  - in_grid.
Defined.

(** X8. Inside a rectangular grid [bfsPath] decides reachability: it returns
    the empty path exactly when no route of moves into four-adjacent free
    cells leads from [start] to [goal]; every other result begins with
    [start], ends with [goal] and is such a route. *)
Theorem bfsPath_decides (g : grid) (start goal : QPoint) :
  rect g -> inb g start -> inb g goal ->
  (BFS.bfsPath g start goal = Ok [] <-> forall rest, ~ connects g start goal rest) /\
  (forall path, BFS.bfsPath g start goal = Ok path -> path <> [] ->
     exists rest, path = start :: rest /\ connects g start goal rest).
Proof.
  intros Hrect Hstart Hgoal.
  destruct (bfsPath_cases g start goal Hrect Hstart Hgoal)
    as [[E Hno]|(path & E & Hc & Hmin)]; rewrite E; split.
  - done.
  - intros p [= <-] Hne. done.
  - split; [discriminate|]. intros Hno. by destruct (Hno path).
  - intros p [= <-] _. eauto.
Qed.

Lemma bfsPath_decides_witness :
  (BFS.bfsPath walledRow (QPt 0 0) (QPt 2 0) = Ok [] <->
   forall rest, ~ connects walledRow (QPt 0 0) (QPt 2 0) rest) /\
  (forall path, BFS.bfsPath walledRow (QPt 0 0) (QPt 2 0) = Ok path -> path <> [] ->
     exists rest, path = QPt 0 0 :: rest /\ connects walledRow (QPt 0 0) (QPt 2 0) rest).
Proof.
  apply (bfsPath_decides walledRow (QPt 0 0) (QPt 2 0)).
  - repeat constructor.
  - in_grid.
  - in_grid.
Defined.

(** ** Further facts: buildGrid *)

Lemma in_rectPixels x0 x1 y0 y1 x y :
  In (x, y) (rectPixels x0 x1 y0 y1) <-> (x0 <= x < x1) /\ (y0 <= y < y1).
Proof.
  unfold rectPixels. rewrite in_flat_map. split.
  - intros (y' & Hy & Hin). apply in_map_iff in Hin as (x' & [= <- <-] & Hx).
    apply list_elem_of_In, elem_of_seqZ in Hy, Hx. lia.
  - intros [Hx Hy]. exists y. split; [apply list_elem_of_In, elem_of_seqZ; lia|].
    apply in_map_iff. exists x. split; [done|]. apply list_elem_of_In, elem_of_seqZ. lia.
Qed.

Lemma filter_all {A} (f : A -> bool) (l : list A) :
  (forall a, In a l -> f a = true) -> List.filter f l = l.
Proof.
  induction l as [|a l IH]; intros H; [done|]. simpl.
  rewrite (H a) by (by left). f_equal. apply IH. intros b Hb. apply H. by right.
Qed.

Lemma filter_none {A} (f : A -> bool) (l : list A) :
  (forall a, In a l -> f a = false) -> List.filter f l = [].
Proof.
  induction l as [|a l IH]; intros H; [done|]. simpl.
  rewrite (H a) by (by left). apply IH. intros b Hb. apply H. by right.
Qed.

(** The cell of a uniformly bright, or of a uniformly not bright, image. *)
Lemma cellFree_uniform maze cs gx gy b :
  1 <= cs <= 32 -> 0 <= gx -> 0 <= gy ->
  gx * cs < width maze -> gy * cs < height maze ->
  (forall x y, 0 <= x < width maze -> 0 <= y < height maze -> bright maze (x, y) = b) ->
  cellFree maze cs gx gy = b.
Proof.
  intros Hcs Hgx Hgy Hw Hh Hb. unfold cellFree, whitePixels.
  set (px := cellPixels maze cs gx gy).
  assert (Ht : size px = (Z.min (gx * cs + cs) (width maze) - gx * cs)
                         * (Z.min (gy * cs + cs) (height maze) - gy * cs)).
  { unfold px, cellPixels. apply size_rectPixels; nia. }
  assert (Hpos : 0 < size px) by (rewrite Ht; apply Z.mul_pos_pos; lia).
  assert (Hsmall : size px <= 1024) by (rewrite Ht; nia).
  assert (Hin : forall a, In a px -> bright maze a = b).
  { intros [x y] Ha. apply in_rectPixels in Ha.
    assert (0 <= gx * cs) by nia. assert (0 <= gy * cs) by nia. apply Hb; lia. }
  destruct b.
  - rewrite filter_all by done. rewrite mostlyWhite_exact by lia.
    apply Z.ltb_lt. lia.
  - rewrite filter_none by done. change (size (@nil (Z * Z))) with 0.
    rewrite mostlyWhite_exact by lia. apply Z.ltb_ge. lia.
Qed.

(** X9. With a cell size between 1 and 32, an image all of whose pixels are
    bright gives a grid of free cells only, and an image without any bright
    pixel gives a grid of blocked cells only. *)
Theorem buildGrid_uniform (maze : QImage) (cellSize : Z) (grid0 : grid) (b : bool) :
  0 <= width maze -> 0 <= height maze -> 1 <= cellSize <= 32 ->
  (forall x y, 0 <= x < width maze -> 0 <= y < height maze -> bright maze (x, y) = b) ->
  exists g, buildGrid maze cellSize grid0 = Ok g /\
            Forall (Forall (fun c => c = b)) g.
Proof.
  intros Hw Hh Hcs Hb.
  destruct (ceil_quot (width maze) cellSize Hw ltac:(lia)) as [Hgw0 Hgw].
  destruct (ceil_quot (height maze) cellSize Hh ltac:(lia)) as [Hgh0 Hgh].
  eexists. split; [apply buildGrid_final; lia|].
  unfold finalGrid, finalRow. rewrite Forall_forall. intros row Hrow.
  apply list_elem_of_fmap in Hrow as (gy & -> & Hy). apply elem_of_seqZ in Hy.
  rewrite Forall_forall. intros c Hc.
  apply list_elem_of_fmap in Hc as (gx & -> & Hx). apply elem_of_seqZ in Hx.
  apply cellFree_uniform; try done; try lia; nia.
Qed.

Lemma buildGrid_uniform_witness :
  exists g, buildGrid palePixel 3 [] = Ok g /\ Forall (Forall (fun c => c = false)) g.
Proof.
  apply (buildGrid_uniform palePixel 3 [] false); simpl; try lia.
  intros x y _ _. reflexivity.
Defined.

(** ** findMazeBBox *)

Lemma extentInv_next_row img wl y e :
  0 <= width img ->
  extentInv img wl (width img) y e -> extentInv img wl 0 (y + 1) e.
Proof.
  intros Hw [Hc Ha].
  assert (Hs : forall x' y', scanned img 0 (y + 1) x' y' -> scanned img (width img) y x' y').
  { unfold scanned. intros x' y' [Hb Hd]. split; [done|]. lia. }
  assert (Hs' : forall x' y', scanned img (width img) y x' y' -> scanned img 0 (y + 1) x' y').
  { unfold scanned. intros x' y' [Hb Hd]. split; [done|]. lia. }
  split; [intros x' y' H; apply Hc; auto|].
  destruct Ha as [[E Hn]|(A1 & A2 & A3 & A4)].
  - left. split; [done|]. intros x' y' H. apply Hn. auto.
  - right. repeat split.
    + destruct A1 as (a & b & ? & ?). exists a, b. auto.
    + destruct A2 as (a & b & ? & ?). exists a, b. auto.
    + destruct A3 as (a & b & ? & ?). exists a, b. auto.
    + destruct A4 as (a & b & ? & ?). exists a, b. auto.
Qed.

Lemma scanned_next img x y x' y' :
  0 <= x < width img -> 0 <= y < height img ->
  scanned img (x + 1) y x' y' <-> scanned img x y x' y' \/ (x' = x /\ y' = y).
Proof. unfold scanned. intros Hx Hy. split; [intros [Hb Hd]|intros [[Hb Hd]|[-> ->]]]; lia. Qed.

Lemma scanPixel_inv img wl x y e :
  0 <= x < width img -> 0 <= y < height img ->
  extentInv img wl x y e -> extentInv img wl (x + 1) y (scanPixel img wl x y e).
Proof.
  intros Hx Hy [Hc Ha]. unfold scanPixel. cbv zeta.
  destruct (Z.ltb_spec (luminance (pixel img x y)) wl) as [Hd|Hd].
  - assert (Hdark : dark img wl x y) by (by split).
    assert (Hnew : scanned img (x + 1) y x y) by (apply scanned_next; auto).
    assert (Hold : forall x' y', scanned img x y x' y' -> scanned img (x + 1) y x' y').
    { intros. apply scanned_next; auto. }
    split.
    + intros x' y' Hs Hd'. simpl.
      apply (scanned_next img x y x' y' Hx Hy) in Hs as [Hs|[-> ->]].
      * specialize (Hc x' y' Hs Hd').
        destruct (Z.ltb_spec x (minx e)), (Z.ltb_spec y (miny e)),
          (Z.gtb_spec x (maxx e)), (Z.gtb_spec y (maxy e)); lia.
      * destruct (Z.ltb_spec x (minx e)), (Z.ltb_spec y (miny e)),
          (Z.gtb_spec x (maxx e)), (Z.gtb_spec y (maxy e)); lia.
    + right. simpl. destruct Ha as [[-> Hn]|(A1 & A2 & A3 & A4)].
      * simpl. destruct (Z.ltb_spec x (width img)); [|lia].
        destruct (Z.ltb_spec y (height img)); [|lia].
        destruct (Z.gtb_spec x (-1)); [|lia]. destruct (Z.gtb_spec y (-1)); [|lia].
        repeat split; exists x, y; auto.
      * repeat split.
        -- destruct (Z.ltb_spec x (minx e)); [exists x, y; auto|].
           destruct A1 as (a & b & ? & ? & ?). exists a, b. auto.
        -- destruct (Z.ltb_spec y (miny e)); [exists x, y; auto|].
           destruct A2 as (a & b & ? & ? & ?). exists a, b. auto.
        -- destruct (Z.gtb_spec x (maxx e)); [exists x, y; auto|].
           destruct A3 as (a & b & ? & ? & ?). exists a, b. auto.
        -- destruct (Z.gtb_spec y (maxy e)); [exists x, y; auto|].
           destruct A4 as (a & b & ? & ? & ?). exists a, b. auto.
  - assert (Hnd : ~ dark img wl x y) by (intros [_ ?]; lia).
    split.
    + intros x' y' Hs Hd'. apply (scanned_next img x y x' y' Hx Hy) in Hs as [Hs|[-> ->]]; [auto|done].
    + destruct Ha as [[E Hn]|(A1 & A2 & A3 & A4)].
      * left. split; [done|]. intros x' y' Hs.
        apply (scanned_next img x y x' y' Hx Hy) in Hs as [Hs|[-> ->]]; auto.
      * right. repeat split.
        -- destruct A1 as (a & b & ? & ?). exists a, b. split; [apply scanned_next; auto|done].
        -- destruct A2 as (a & b & ? & ?). exists a, b. split; [apply scanned_next; auto|done].
        -- destruct A3 as (a & b & ? & ?). exists a, b. split; [apply scanned_next; auto|done].
        -- destruct A4 as (a & b & ? & ?). exists a, b. split; [apply scanned_next; auto|done].
Qed.

(** The scan returns the extremes of all dark pixels of the image. *)
Lemma scanImage_ok img wl :
  0 <= width img -> 0 <= height img ->
  exists e, scanImage img wl = Ok e /\ extentInv img wl 0 (height img) e.
Proof.
  intros Hw Hh. unfold scanImage.
  apply (forZ_inv (fun y e => extentInv img wl 0 y e)); [done| |].
  - split; [intros x' y' [? ?]; lia|]. left. split; [done|]. intros x' y' [? ?]. lia.
  - intros y e Hy HI.
    destruct (forZ_inv (fun x e => extentInv img wl x y e)
                (fun x e => Ok (scanPixel img wl x y e)) 0 (width img) e)
      as (e' & E & HI'); [done|done| |].
    + intros x e0 Hx HI0. eexists. split; [reflexivity|]. by apply scanPixel_inv.
    + exists e'. split; [done|]. by apply extentInv_next_row.
Qed.






(** The bounding box lies inside the image and is not empty. *)
Lemma findMazeBBox_inside (img : QImage) (wallLum pad : Z) :
  1 <= width img -> 1 <= height img -> 0 <= pad ->
  exists r, findMazeBBox img wallLum pad = Ok r /\
    (0 <= rleft r <= rright r /\ rright r <= width img - 1) /\
    (0 <= rtop r <= rbottom r /\ rbottom r <= height img - 1) /\
    Z.min (width img) (pad + 1) <= rectWidth r /\
    Z.min (height img) (pad + 1) <= rectHeight r.
Proof.
  intros Hw Hh Hpad. unfold findMazeBBox, rectWidth, rectHeight.
  destruct (scanImage_ok img wallLum ltac:(lia) ltac:(lia)) as (e & -> & Hc & Ha).
  cbn [bind]. destruct Ha as [[-> _]|(A1 & A2 & A3 & A4)].
  - simpl. eexists. split; [reflexivity|]. simpl. lia.
  - destruct A1 as (a1 & b1 & S1 & D1 & E1). destruct A2 as (a2 & b2 & S2 & D2 & E2).
    destruct A3 as (a3 & b3 & S3 & D3 & E3). destruct A4 as (a4 & b4 & S4 & D4 & E4).
    pose proof (Hc a1 b1 S1 D1). pose proof (Hc a2 b2 S2 D2).
    pose proof (Hc a3 b3 S3 D3). pose proof (Hc a4 b4 S4 D4).
    pose proof D1 as [[? ?] _]. pose proof D2 as [[? ?] _].
    pose proof D3 as [[? ?] _]. pose proof D4 as [[? ?] _].
    destruct (Z.ltb_spec (maxx e) 0); [lia|].
    eexists. split; [reflexivity|]. simpl. lia.
Qed.

(** ** The solving pipeline *)

(** The grid after the sealing step, cell by cell. *)
Lemma sealBorder_cells (g : grid) (start goal : QPoint) :
  rect g -> 1 <= gwidth g ->
  exists g', sealBorder g start goal = Ok g' /\ shaped g g' /\
    (forall p, inb g p -> onBorder g p -> p <> start -> p <> goal ->
               cell g' p = false) /\
    (forall p, inb g p -> p = start \/ p = goal \/ ~ onBorder g p ->
               cell g' p = cell g p).
Proof.
  intros Hrect Hw.
  assert (Hh : 1 <= gheight g).
  { destruct g; [simpl in Hw; lia|]. unfold gheight, size. simpl. lia. }
  unfold sealBorder. destruct g as [|row0 g0] eqn:Eg; [simpl in Hw; lia|].
  rewrite <- Eg in *. replace (at_ g 0) with (Ok row0) by (by rewrite Eg).
  cbn [bind]. replace (size row0) with (gwidth g) by (by rewrite Eg).
  change (size g) with (gheight g). clear Eg row0 g0.
  lazymatch goal with
  | |- context [bind (forZ 0 _ ?body ?init) _] =>
      destruct (forZ_inv (fun x gx => sealInv g (sealedRows g start goal x) gx)
                  body 0 (gwidth g) init) as (g1 & -> & HI1); [lia| | |]
  end.
  { split; [by apply shaped_refl|]. intros p [Hx Hy]. split; [|done].
    intros (_ & ? & _). lia. }
  { intros x gx Hx HI.
    destruct (sealInv_step g gx start goal (QPt x 0)
                (sealedRows g start goal x)
                (fun p => sealedRows g start goal x p \/
                          (p = QPt x 0 /\ p <> start /\ p <> goal)) HI)
      as (ga & -> & HIa); [unfold inb; simpl; lia|done|]. cbn [bind].
    apply (sealInv_step g ga start goal (QPt x (gheight g - 1)) _ _ HIa);
      [unfold inb; simpl; lia|].
    intros [u v] [Hu Hv]. unfold sealedRows. simpl in *. split.
    - intros ([?|?] & ? & ? & ?); destruct (decide (u = x)) as [->|?];
        subst; (left; left; repeat split; auto; lia) || auto.
    - intros [[(? & ? & ? & ?)|(E & ? & ?)]|(E & ? & ?)];
        try injection E as -> ->; repeat split; auto; lia. }
  cbn [bind].
  lazymatch goal with
  | |- context [forZ 0 _ ?body ?init] =>
      destruct (forZ_inv
                  (fun y gy => sealInv g (fun p => sealedRows g start goal (gwidth g) p \/
                                                   sealedCols g start goal y p) gy)
                  body 0 (gheight g) init) as (g2 & -> & [Hsh HI2]); [lia| | |]
  end.
  { destruct HI1 as [Hsh HI1]. split; [done|]. intros p Hp.
    destruct (HI1 p Hp) as [H1 H2]. split.
    - intros [?|(_ & ? & _)]; [auto|destruct Hp; lia].
    - intros Hn. apply H2. intros ?. apply Hn. by left. }
  { intros y gy Hy HI.
    destruct (sealInv_step g gy start goal (QPt 0 y)
                (fun p => sealedRows g start goal (gwidth g) p \/
                          sealedCols g start goal y p)
                (fun p => (sealedRows g start goal (gwidth g) p \/
                           sealedCols g start goal y p) \/
                          (p = QPt 0 y /\ p <> start /\ p <> goal)) HI)
      as (ga & -> & HIa); [unfold inb; simpl; lia|done|]. cbn [bind].
    apply (sealInv_step g ga start goal (QPt (gwidth g - 1) y) _ _ HIa);
      [unfold inb; simpl; lia|].
    intros [u v] [Hu Hv]. unfold sealedCols. simpl in *. split.
    - intros [?|([Hu0|Hu1] & Hlt & Hs & Ht)]; [by left; left; left| |];
        (destruct (decide (v = y)) as [->|Hne];
          [|left; left; right; split; [auto|split; [lia|done]]]).
      + left. right. subst u. done.
      + right. subst u. done.
    - intros [[[?|(Hc & Hlt & Hs & Ht)]|(E & Hs & Ht)]|(E & Hs & Ht)].
      + by left.
      + right. split; [done|]. split; [lia|done].
      + right. injection E as -> ->. split; [by left|]. split; [lia|done].
      + right. injection E as -> ->. split; [by right|]. split; [lia|done]. }
  exists g2. split; [done|]. split; [done|]. split.
  - intros p Hp Hb Hs Ht. apply (HI2 p Hp). unfold sealedRows, sealedCols.
    destruct Hp as [Hx Hy]. destruct Hb as [?|[?|[?|?]]].
    + right. repeat split; auto; lia.
    + right. repeat split; auto; lia.
    + left. repeat split; auto; lia.
    + left. repeat split; auto; lia.
  - intros p Hp Hc. apply (HI2 p Hp). unfold sealedRows, sealedCols, onBorder in *.
    intros [(? & _ & ? & ?)|(? & _ & ? & ?)]; destruct Hc as [?|[?|Hn]]; try done;
      apply Hn; tauto.
Qed.

Lemma finalGrid_shape maze cs gw gh :
  0 <= gw -> 1 <= gh ->
  rect (finalGrid maze cs gw gh) /\
  gwidth (finalGrid maze cs gw gh) = gw /\ gheight (finalGrid maze cs gw gh) = gh.
Proof.
  intros Hgw Hgh.
  assert (Hh : gheight (finalGrid maze cs gw gh) = gh).
  { unfold gheight, size, finalGrid. rewrite length_map, length_seqZ. lia. }
  assert (Hw : gwidth (finalGrid maze cs gw gh) = gw).
  { unfold finalGrid. rewrite seqZ_cons by lia. simpl. by apply size_finalRow. }
  split; [|done]. unfold rect. rewrite Hw. unfold finalGrid.
  apply Forall_forall. intros row Hrow.
  apply list_elem_of_fmap in Hrow as (gy & -> & _). by apply size_finalRow.
Qed.

(** The grid that the pipeline builds: at least one cell, and rectangular. *)
Lemma solveMaze_grid (img : QImage) :
  1 <= width img -> 1 <= height img ->
  exists bbox g,
    findMazeBBox img 200 2 = Ok bbox /\
    (0 <= rleft bbox <= rright bbox /\ rright bbox <= width img - 1) /\
    (0 <= rtop bbox <= rbottom bbox /\ rbottom bbox <= height img - 1) /\
    Z.min (width img) 3 <= rectWidth bbox /\
    Z.min (height img) 3 <= rectHeight bbox /\
    buildGrid (copyRect img bbox) 3 [] = Ok g /\
    g = finalGrid (copyRect img bbox) 3 (gwidth g) (gheight g) /\
    rect g /\ 1 <= gwidth g /\ 1 <= gheight g.
Proof.
  intros Hw Hh.
  destruct (findMazeBBox_inside img 200 2 Hw Hh ltac:(lia))
    as (bbox & E & Hx & Hy & Hbw & Hbh).
  set (m := copyRect img bbox).
  assert (Hmw : 1 <= width m) by (unfold m, copyRect, rectWidth; simpl; lia).
  assert (Hmh : 1 <= height m) by (unfold m, copyRect, rectHeight; simpl; lia).
  destruct (ceil_quot (width m) 3 ltac:(lia) ltac:(lia)) as [Hgw0 Hgw].
  destruct (ceil_quot (height m) 3 ltac:(lia) ltac:(lia)) as [Hgh0 Hgh].
  destruct (finalGrid_shape m 3 (Z.quot (width m + 3 - 1) 3) (Z.quot (height m + 3 - 1) 3))
    as (Hr & Hfw & Hfh); [lia|lia|].
  exists bbox, (finalGrid m 3 (Z.quot (width m + 3 - 1) 3) (Z.quot (height m + 3 - 1) 3)).
  split; [done|]. split; [done|]. split; [done|].
  split; [lia|]. split; [lia|].
  split; [apply buildGrid_final; lia|]. rewrite Hfw, Hfh.
  split; [done|]. split; [done|]. lia.
Qed.

(** Every run of the pipeline, stage by stage. *)
Lemma solveMaze_stages (img : QImage) :
  1 <= width img -> 1 <= height img ->
  exists bbox g,
    findMazeBBox img 200 2 = Ok bbox /\
    Z.min (width img) 3 <= rectWidth bbox /\
    Z.min (height img) 3 <= rectHeight bbox /\
    buildGrid (copyRect img bbox) 3 [] = Ok g /\
    g = finalGrid (copyRect img bbox) 3 (gwidth g) (gheight g) /\
    rect g /\ 1 <= gwidth g /\
    ((findOpenings g = Ok None /\ solveMaze img = Ok NoEntrances) \/
     (exists start goal g',
        findOpenings g = Ok (Some (start, goal)) /\
        (inb g start /\ onBorder g start /\ cell g start = true) /\
        (inb g goal /\ onBorder g goal /\ cell g goal = true) /\
        sealBorder g start goal = Ok g' /\ shaped g g' /\
        (forall p, inb g p -> onBorder g p -> p <> start -> p <> goal ->
                   cell g' p = false) /\
        (forall p, inb g p -> p = start \/ p = goal \/ ~ onBorder g p ->
                   cell g' p = cell g p) /\
        ((solveMaze img = Ok NoPath /\ forall rest, ~ connects g' start goal rest) \/
         (exists rest text,
            connects g' start goal rest /\
            (forall r, connects g' start goal r -> (length rest <= length r)%nat) /\
            pathToMoves (start :: rest) = Ok text /\
            solveMaze img =
              Ok (Solved (start :: rest) text
                    (normalizedPath (rectWidth bbox) (rectHeight bbox) 3
                       (start :: rest))))))).
Proof.
  intros Hw Hh.
  destruct (solveMaze_grid img Hw Hh)
    as (bbox & g & Eb & _ & _ & Hbw & Hbh & Eg & Hfin & Hrect & Hgw & Hgh).
  exists bbox, g. split; [done|]. split; [done|]. split; [done|]. split; [done|].
  split; [done|]. split; [done|]. split; [done|].
  unfold solveMaze. rewrite Eb. cbn [bind]. cbv zeta. rewrite Eg. cbn [bind].
  rewrite (findOpenings_candidates g Hrect Hgw).
  assert (Hin : forall r, In r (List.filter (cell g) (scanOrder (gwidth g) (gheight g))) ->
                          inb g r /\ onBorder g r /\ cell g r = true).
  { intros r Hr. apply filter_In in Hr as [Hr Hc].
    apply in_scanOrder in Hr as [? ?]; [|done..]. done. }
  destruct (List.filter _ _) as [|a [|b l]] eqn:Ef; cbn [bind]; [by left..|].
  right. set (t := List.last (a :: b :: l) a).
  assert (Ha' : inb g a /\ onBorder g a /\ cell g a = true) by (apply Hin; by left).
  assert (Ht' : inb g t /\ onBorder g t /\ cell g t = true)
    by (apply Hin; by apply last_in_list).
  pose proof Ha' as [Ha _]. pose proof Ht' as [Ht _].
  destruct (sealBorder_cells g a t Hrect Hgw) as (g' & Es & Hsh & Hs1 & Hs2).
  exists a, t, g'. split; [done|]. split; [done|]. split; [done|].
  split; [done|]. split; [done|].
  split; [done|]. split; [done|].
  change (List.last (b :: l) a) with t. rewrite Es. cbn [bind].
  pose proof Hsh as (Hr' & _ & _).
  destruct (bfsPath_cases g' a t Hr' (shaped_inb g g' a Hsh Ha) (shaped_inb g g' t Hsh Ht))
    as [[E Hno]|(rest & E & Hc & Hmin)]; rewrite E; cbn [bind].
  - by left.
  - right.
    assert (Hp : exists text, pathToMoves (a :: rest) = Ok text).
    { unfold pathToMoves. destruct (size (a :: rest) <? 2); [eauto|].
      destruct (compressPath_ok (a :: rest)) as (ms & -> & _); [|cbn [bind]; eauto].
      unfold size. simpl. lia. }
    destruct Hp as (text & Ep). exists rest, text. rewrite Ep. cbn [bind].
    split; [done|]. split; [done|]. split; [done|]. reflexivity.
Qed.

Lemma route_fourConnected g u rest : route g u rest -> fourConnected u rest.
Proof.
  revert u. induction rest as [|v rest IH]; intros u; [done|].
  intros [[Ha _] Hr]. split; [done|]. by apply IH.
Qed.

(** A route stays a route in a grid that agrees on its cells. *)
Lemma route_agree g g' u rest :
  shaped g g' ->
  (forall p, In p rest -> inb g p -> cell g' p = cell g p) ->
  route g u rest -> route g' u rest.
Proof.
  intros Hsh. revert u. induction rest as [|v rest IH]; intros u Hag; [done|].
  intros [(Ha & Hi & Hc) Hr]. split.
  - split; [done|]. split; [by apply (shaped_inb g g')|].
    rewrite Hag; [done|by left|done].
  - apply IH; [|done]. intros p Hp. apply Hag. by right.
Qed.



(** X13 (solveMazeFromFile): the path of a solved maze, in terms of the grid
    that [buildGrid] made of the cropped image, before the sealing: it leads
    from the start to the goal that [findOpenings] chose, moves between
    four-neighbours, visits no cell twice, runs through free cells of the
    grid only, and touches the border of the grid at the start and the goal
    only. *)
Theorem solveMaze_path (img : QImage) path text pts :
  1 <= width img -> 1 <= height img ->
  solveMaze img = Ok (Solved path text pts) ->
  exists bbox g start goal rest,
    findMazeBBox img 200 2 = Ok bbox /\
    buildGrid (copyRect img bbox) 3 [] = Ok g /\
    findOpenings g = Ok (Some (start, goal)) /\
    path = start :: rest /\ List.last rest start = goal /\
    fourConnected start rest /\ NoDup path /\
    (forall p, In p path -> inb g p /\ cell g p = true) /\
    (forall p, In p path -> onBorder g p -> p = start \/ p = goal).
Proof.
  intros Hw Hh E.
  destruct (solveMaze_stages img Hw Hh)
    as (bbox & g & Eb & _ & _ & Eg & _ & Hrect & Hgw & [[_ E']|(start & goal & g' & Ef
          & (Hsi & Hsb & Hsc) & (Hgi & Hgb & Hgc) & Es & Hsh & Hs1 & Hs2
          & [[E' _]|(rest & text' & [Hr Hl] & Hmin & Ep & E')])]);
    rewrite E' in E; [discriminate..|].
  injection E as <- <- <-.
  exists bbox, g, start, goal, rest.
  split; [done|]. split; [done|]. split; [done|]. split; [done|]. split; [done|].
  split; [by apply (route_fourConnected g')|].
  split.
  { apply (shortest_route_NoDup g' goal); [done..|].
    intros r Hr' Hl'. apply Hmin. by split. }
  assert (Hfree : Forall (fun p => inb g' p /\ cell g' p = true) (start :: rest)).
  { apply route_free; [by apply (shaped_inb g g')| |done].
    rewrite Hs2; [done..|by left]. }
  rewrite Forall_forall in Hfree.
  assert (Hinb : forall p, In p (start :: rest) -> inb g p).
  { intros p Hp. destruct (Hfree p) as [Hi _]; [by apply list_elem_of_In|].
    destruct Hsh as (_ & Hw' & Hh'). unfold inb in *. by rewrite <- Hw', <- Hh'. }
  assert (Hbord : forall p, In p (start :: rest) -> onBorder g p -> p = start \/ p = goal).
  { intros p Hp Hb.
    destruct (decide (p = start)) as [|Hns]; [by left|].
    destruct (decide (p = goal)) as [|Hng]; [by right|].
    destruct (Hfree p) as [_ Hc]; [by apply list_elem_of_In|].
    rewrite (Hs1 p) in Hc; [discriminate|by apply Hinb|done..]. }
  split; [|done].
  intros p Hp. split; [by apply Hinb|].
  destruct (Hfree p) as [_ Hc]; [by apply list_elem_of_In|].
  rewrite <- Hc. symmetry. apply Hs2; [by apply Hinb|].
  destruct (decide (p = start)) as [|Hns]; [by left|].
  destruct (decide (p = goal)) as [|Hng]; [by right; left|].
  right; right. intros Hb. destruct (Hbord p Hp Hb); done.
Qed.

Lemma solveMaze_path_witness :
  exists bbox g start goal rest,
    findMazeBBox framedCorridor 200 2 = Ok bbox /\
    buildGrid (copyRect framedCorridor bbox) 3 [] = Ok g /\
    findOpenings g = Ok (Some (start, goal)) /\
    [QPt 1 0; QPt 1 1; QPt 1 2] = start :: rest /\ List.last rest start = goal /\
    fourConnected start rest /\ NoDup [QPt 1 0; QPt 1 1; QPt 1 2] /\
    (forall p, In p [QPt 1 0; QPt 1 1; QPt 1 2] -> inb g p /\ cell g p = true) /\
    (forall p, In p [QPt 1 0; QPt 1 1; QPt 1 2] -> onBorder g p ->
               p = start \/ p = goal).
Proof.
  eapply (solveMaze_path framedCorridor); [simpl; lia|simpl; lia|].
  vm_compute. reflexivity.
Defined.

(** X14 (solveMazeFromFile): the message that no path was found is right
    about the grid that [buildGrid] made: two openings were found, and every
    route through free cells from the one to the other passes a third cell of
    the border. *)
Theorem solveMaze_no_path (img : QImage) :
  1 <= width img -> 1 <= height img ->
  solveMaze img = Ok NoPath ->
  exists bbox g start goal,
    findMazeBBox img 200 2 = Ok bbox /\
    buildGrid (copyRect img bbox) 3 [] = Ok g /\
    findOpenings g = Ok (Some (start, goal)) /\
    forall rest, connects g start goal rest ->
                 ~ (forall p, In p rest -> onBorder g p -> p = start \/ p = goal).
Proof.
  intros Hw Hh E.
  destruct (solveMaze_stages img Hw Hh)
    as (bbox & g & Eb & _ & _ & Eg & _ & Hrect & Hgw & [[_ E']|(start & goal & g' & Ef
          & _ & _ & Es & Hsh & Hs1 & Hs2
          & [[_ Hno]|(rest & text' & _ & _ & _ & E')])]);
    [rewrite E' in E; discriminate| |rewrite E' in E; discriminate].
  exists bbox, g, start, goal.
  split; [done|]. split; [done|]. split; [done|].
  intros rest [Hr Hl] Hb. apply (Hno rest). split; [|done].
  apply (route_agree g); [done| |done].
  intros p Hp Hi. apply Hs2; [done|].
  destruct (decide (p = start)) as [|Hns]; [by left|].
  destruct (decide (p = goal)) as [|Hng]; [by right; left|].
  right; right. intros Hb'. destruct (Hb p Hp Hb'); done.
Qed.

Lemma solveMaze_no_path_witness :
  exists bbox g start goal,
    findMazeBBox inkDot 200 2 = Ok bbox /\
    buildGrid (copyRect inkDot bbox) 3 [] = Ok g /\
    findOpenings g = Ok (Some (start, goal)) /\
    forall rest, connects g start goal rest ->
                 ~ (forall p, In p rest -> onBorder g p -> p = start \/ p = goal).
Proof.
  apply (solveMaze_no_path inkDot); [simpl; lia|simpl; lia|].
  vm_compute. reflexivity.
Defined.

(** X15 (solveMazeFromFile): when the built grid has a route through free
    cells between the two openings that touches the border at the openings
    only, the maze is solved, and the path found has no more cells than that
    route. *)
Theorem solveMaze_finds_shortest (img : QImage) bbox g start goal rest :
  1 <= width img -> 1 <= height img ->
  findMazeBBox img 200 2 = Ok bbox ->
  buildGrid (copyRect img bbox) 3 [] = Ok g ->
  findOpenings g = Ok (Some (start, goal)) ->
  connects g start goal rest ->
  (forall p, In p rest -> onBorder g p -> p = start \/ p = goal) ->
  exists path text pts,
    solveMaze img = Ok (Solved path text pts) /\
    (length path <= length (start :: rest))%nat.
Proof.
  intros Hw Hh Eb Eg Ef [Hr Hl] Hb.
  destruct (solveMaze_stages img Hw Hh)
    as (bbox' & g0 & Eb' & _ & _ & Eg' & _ & Hrect & Hgw & Hcases).
  rewrite Eb in Eb'. injection Eb' as <-.
  rewrite Eg in Eg'. injection Eg' as <-.
  destruct Hcases as [[Ef' _]|(start' & goal' & g' & Ef' & _ & _ & Es & Hsh & Hs1 & Hs2 & Hcases)];
    rewrite Ef in Ef'; [discriminate|].
  injection Ef' as <- <-.
  assert (Hc' : connects g' start goal rest).
  { split; [|done]. apply (route_agree g); [done| |done].
    intros p Hp Hi. apply Hs2; [done|].
    destruct (decide (p = start)) as [|Hns]; [by left|].
    destruct (decide (p = goal)) as [|Hng]; [by right; left|].
    right; right. intros Hb'. destruct (Hb p Hp Hb'); done. }
  destruct Hcases as [[_ Hno]|(rest' & text & _ & Hmin & _ & E)].
  - destruct (Hno rest Hc').
  - eexists _, _, _. split; [exact E|]. simpl. specialize (Hmin rest Hc'). lia.
Qed.

Lemma solveMaze_finds_shortest_witness :
  exists path text pts,
    solveMaze framedCorridor = Ok (Solved path text pts) /\
    (length path <= length [QPt 1 0; QPt 1 1; QPt 1 2])%nat.
Proof.
  eapply (solveMaze_finds_shortest framedCorridor (MkRect 0 0 8 8)
           [[false; true; false]; [false; true; false]; [false; true; false]]
           (QPt 1 0) (QPt 1 2) [QPt 1 1; QPt 1 2]);
    [simpl; lia|simpl; lia|vm_compute; reflexivity..| |].
  - unfold connects, route, step, adjacent, inb. cbn.
    repeat split; try lia; reflexivity.
  - intros p [<-|[<-|[]]]; [|by right].
    intros [H|[H|[H|H]]]; vm_compute in H; discriminate.
Defined.

(** X16 (solveMazeFromFile, lines 681-695): for an image at least three
    pixels wide and high, a solved maze has one point per cell of its path,
    and both coordinates of every point lie between 0 and 1 (the doubles of
    the code read as rationals). *)
Theorem solveMaze_points (img : QImage) path text pts :
  3 <= width img -> 3 <= height img ->
  solveMaze img = Ok (Solved path text pts) ->
  length pts = length path /\
  Forall (fun q => (0 <= fst q <= 1)%Q /\ (0 <= snd q <= 1)%Q) pts.
Proof.
  intros Hw Hh E.
  destruct (solveMaze_stages img ltac:(lia) ltac:(lia))
    as (bbox & g & _ & Hbw & Hbh & _ & _ & _ & _ & [[_ E']|(start & goal & g' & _
          & _ & _ & _ & _ & _ & _
          & [[E' _]|(rest & text' & _ & _ & _ & E')])]);
    rewrite E' in E; [discriminate..|].
  assert (Hp : forall l,
    length (normalizedPath (rectWidth bbox) (rectHeight bbox) 3 l) = length l /\
    Forall (fun q => (0 <= fst q <= 1)%Q /\ (0 <= snd q <= 1)%Q)
           (normalizedPath (rectWidth bbox) (rectHeight bbox) 3 l)).
  { intros l. unfold normalizedPath. split; [apply length_map|].
    apply Forall_forall. intros q Hq.
    apply list_elem_of_fmap in Hq as (c & -> & _).
    destruct (toNormalized_spec (rectWidth bbox) (rectHeight bbox) 3 c)
      as (_ & _ & ? & ?); [lia|lia|done]. }
  injection E as <- <- <-. exact (Hp (start :: rest)).
Qed.

Lemma solveMaze_points_witness :
  length [(45 # 70, 15 # 70); (45 # 70, 45 # 70); (45 # 70, 7 # 7)]
  = length [QPt 1 0; QPt 1 1; QPt 1 2] /\
  Forall (fun q => (0 <= fst q <= 1)%Q /\ (0 <= snd q <= 1)%Q)
         [(45 # 70, 15 # 70); (45 # 70, 45 # 70); (45 # 70, 7 # 7)].
Proof.
  eapply (solveMaze_points framedCorridor); [simpl; lia|simpl; lia|].
  vm_compute. reflexivity.
Defined.




(** ** The overlay *)



(** ** The conversation memory *)

(** One answered exchange on a history of at least 19 messages. *)
Lemma converse_answered (m : memory) (e : exchange) :
  replyText e <> EmptyString ->
  (19 <= length (conversationHistory m))%nat ->
  let h := conversationHistory m
             ++ [Msg "user" (userText e); Msg "assistant" (replyText e)] in
  conversationHistory (converse m e) = tail h /\
  (writable e = true -> memoryFile (converse m e) = Some h).
Proof.
  intros Hr Hn h. unfold converse, finished, postChat. cbn [conversationHistory memoryFile].
  destruct (String.eqb_spec (replyText e) EmptyString) as [|_]; [done|].
  rewrite <- app_assoc. cbn [app]. fold h.
  assert (Hsz : size h >? 20 = true).
  { apply Z.gtb_lt. unfold size, h. rewrite length_app. simpl. lia. }
  rewrite Hsz. cbn [conversationHistory memoryFile].
  split; [done|]. by intros ->.
Qed.

(** X19 (ChatWindow::postChat): the history is not kept at 20 messages.  From
    19 messages on, every answered exchange adds the question and the answer
    and removes one message only, so that the history that is sent with the
    next request grows by one message per exchange; and the file, written
    before the removal, holds the removed message as well. *)
Theorem conversation_not_capped (es : list exchange) (e : exchange) (m : memory) :
  Forall (fun e => replyText e <> EmptyString) (es ++ [e]) ->
  writable e = true ->
  (19 <= length (conversationHistory m))%nat ->
  let m' := conversation (es ++ [e]) m in
  length (conversationHistory m')
  = (length (conversationHistory m) + length (es ++ [e]))%nat /\
  exists first, memoryFile m' = Some (first :: conversationHistory m').
Proof.
  intros Hall Hwr Hn.
  assert (Hlen : forall l m0,
    Forall (fun e => replyText e <> EmptyString) l ->
    (19 <= length (conversationHistory m0))%nat ->
    length (conversationHistory (conversation l m0))
    = (length (conversationHistory m0) + length l)%nat).
  { induction l as [|x l IH]; intros m0 Hl Hm0; [simpl; lia|].
    apply Forall_cons in Hl as [Hx Hl]. unfold conversation. cbn [fold_left].
    destruct (converse_answered m0 x Hx Hm0) as [Eh _].
    assert (El : length (conversationHistory (converse m0 x))
                 = S (length (conversationHistory m0))).
    { rewrite Eh. destruct (conversationHistory m0) as [|y t]; [simpl in Hm0; lia|].
      simpl. rewrite length_app. simpl. lia. }
    fold (conversation l (converse m0 x)). rewrite IH; [|done|lia].
    rewrite El. simpl. lia. }
  cbv zeta. split; [by apply Hlen|].
  apply Forall_app in Hall as [Hes He]. apply Forall_cons in He as [He _].
  unfold conversation. rewrite fold_left_app. cbn [fold_left].
  fold (conversation es m). set (m1 := conversation es m).
  assert (Hm1 : (19 <= length (conversationHistory m1))%nat).
  { unfold m1. rewrite Hlen; [lia|done..]. }
  destruct (converse_answered m1 e He Hm1) as [Eh Ef].
  rewrite Eh, (Ef Hwr).
  destruct (conversationHistory m1) as [|y t]; [simpl in Hm1; lia|].
  by exists y.
Qed.

Lemma conversation_not_capped_witness :
  let m := Mem (repeat (Msg "user" "hello") 19) None in
  let e := Exchange "question" "answer" true in
  let m' := conversation ([e] ++ [e]) m in
  length (conversationHistory m')
  = (length (conversationHistory m) + length ([e] ++ [e]))%nat /\
  exists first, memoryFile m' = Some (first :: conversationHistory m').
Proof.
  apply (conversation_not_capped [Exchange "question" "answer" true]
           (Exchange "question" "answer" true)
           (Mem (repeat (Msg "user" "hello") 19) None)).
  - repeat constructor; discriminate.
  - reflexivity.
  - simpl. lia.
Defined.
